(** * Issue Tracker: the store and query engine of [backend/main.py]

    A shallow embedding of the in-memory issue store: the pydantic models,
    [create_issue], [update_issue] and the search / filter / sort / paginate
    pipeline of [get_issues], followed by the properties of the store that
    the specification states.

    Conventions of the embedding:
    - the module-level list [issues_db] is threaded explicitly through every
      operation;
    - [datetime.now()] and [uuid.uuid4()] are inputs of the operation that
      calls them, one argument per call;
    - an exception is a value of [result];
    - Python [int] is [Z];
    - a Python [str] is the [string] of the bytes of its UTF-8 encoding. On
      such strings equality, concatenation, the order of two strings and the
      occurrence of one string in another are those of the sequences of
      characters; [len] counts the characters, not the bytes;
    - [str.lower], which follows the Unicode tables of the interpreter, is a
      parameter [lower] of the development, with the two facts about it that
      the proofs use. *)

From Stdlib Require Import ZArith Ascii String.
From stdpp Require Import base list strings sorting gmap.

#[local] Set Warnings "-clear-no-such-hyp".
#[local] Open Scope string_scope.
#[local] Open Scope list_scope.
#[local] Open Scope Z_scope.

(** ** Strings *)

(** [s.lower()]. The function is the interpreter's, not the repository's:
    it is taken as a parameter, known to map the empty string to itself and
    every other string to a non-empty one (each character has a lower-case
    form of at least one character). *)
Class StrLower := {
  lower : string → string;
  lower_empty : lower "" = "";
  lower_nonempty s : s ≠ "" → lower s ≠ "";
}.

(** A byte [10xxxxxx], which continues a character of the encoding. *)
Definition is_continuation (c : ascii) : bool :=
  let n := nat_of_ascii c in ((128 <=? n)%nat && (n <? 192)%nat)%bool.

(** [len(s)]: the number of characters, one per byte that starts one. *)
Fixpoint len (s : string) : nat :=
  match s with
  | EmptyString => O
  | String c s' => if is_continuation c then len s' else S (len s')
  end.

(** [sub in s] on strings. An encoded string occurs in another exactly where
    its characters occur in the other's: the encoding of a character never
    starts inside that of another. *)
Fixpoint str_in (sub s : string) : bool :=
  String.prefix sub s ||
  match s with
  | EmptyString => false
  | String _ s' => str_in sub s'
  end.

(** Truthiness of an [Optional[str]]: [None] and the empty string are falsy. *)
Definition truthy (o : option string) : bool :=
  match o with
  | Some s => negb (String.eqb s "")
  | None => false
  end.

(** [o or ""] *)
Definition or_empty (o : option string) : string :=
  if truthy o then default "" o else "".

(** ** Exceptions *)

Record error_detail := {
  error : string;
  message : string;
  suggestion : string;
}.

Inductive exn :=
  | AttributeError
  | ZeroDivisionError
  | HTTPException (status_code : Z) (detail : error_detail).

Inductive result (A : Type) :=
  | Ok (a : A)
  | Raise (e : exn).
Arguments Ok {A} a.
Arguments Raise {A} e.

#[global] Instance result_ret : MRet result := @Ok.
#[global] Instance result_bind : MBind result := λ A B k r,
  match r with
  | Ok a => k a
  | Raise e => Raise e
  end.
#[global] Instance result_fmap : FMap result := λ A B f r,
  match r with
  | Ok a => Ok (f a)
  | Raise e => Raise e
  end.

(** ** Data model *)

Inductive IssueStatus := open | in_progress | closed.
Inductive IssuePriority := low | medium | high | critical.

#[global] Instance IssueStatus_eq_dec : EqDecision IssueStatus.
Proof. solve_decision. Defined.
#[global] Instance IssuePriority_eq_dec : EqDecision IssuePriority.
Proof. solve_decision. Defined.

(** The string value of each enum member. *)
Definition IssueStatus_value (s : IssueStatus) : string :=
  match s with
  | open => "open"
  | in_progress => "in-progress"
  | closed => "closed"
  end.

Definition IssuePriority_value (p : IssuePriority) : string :=
  match p with
  | low => "low"
  | medium => "medium"
  | high => "high"
  | critical => "critical"
  end.

Definition datetime := Z.

(** [IssueCreate] (the fields of [IssueBase]), as validation delivers it:
    [title] is required, [status] and [priority] are never null. *)
Record IssueCreate := {
  new_title : string;
  new_description : option string;
  new_status : IssueStatus;
  new_priority : IssuePriority;
  new_assignee : option string;
}.

(** A stored [Issue] object. Attribute assignment is not validated, so each
    of the five client-settable attributes can hold [None]. *)
Record Issue := {
  title : option string;
  description : option string;
  status : option IssueStatus;
  priority : option IssuePriority;
  assignee : option string;
  id : string;
  created_at : datetime;
  updated_at : datetime;
}.

(** A field of [IssueUpdate]: left unset by the request, or set by it to a
    value that may be null. *)
Inductive field (A : Type) :=
  | absent
  | present (v : option A).
Arguments absent {A}.
Arguments present {A} v.

Record IssueUpdate := {
  upd_title : field string;
  upd_description : field string;
  upd_status : field IssueStatus;
  upd_priority : field IssuePriority;
  upd_assignee : field string;
}.

(** *** Field constraints checked at the boundary *)

Definition len_between (lo hi : nat) (s : string) : bool :=
  ((lo <=? len s)%nat && (len s <=? hi)%nat)%bool.

Definition opt_ok (p : string → bool) (o : option string) : bool :=
  match o with
  | Some s => p s
  | None => true
  end.

Definition field_ok (p : string → bool) (f : field string) : bool :=
  match f with
  | absent => true
  | present o => opt_ok p o
  end.

Definition valid_IssueCreate (d : IssueCreate) : bool :=
  (len_between 1 200 (new_title d)
   && opt_ok (len_between 0 2000) (new_description d)
   && opt_ok (len_between 0 100) (new_assignee d))%bool.

Definition valid_IssueUpdate (u : IssueUpdate) : bool :=
  (field_ok (len_between 1 200) (upd_title u)
   && field_ok (len_between 0 2000) (upd_description u)
   && field_ok (len_between 0 100) (upd_assignee u))%bool.

(** ** create_issue *)

Definition create_issue (uuid : string) (now1 now2 : datetime)
    (issue_data : IssueCreate) (issues_db : list Issue) : Issue * list Issue :=
  let new_issue :=
    {| id := uuid;
       created_at := now1;
       updated_at := now2;
       title := Some (new_title issue_data);
       description := new_description issue_data;
       status := Some (new_status issue_data);
       priority := Some (new_priority issue_data);
       assignee := new_assignee issue_data |} in
  (new_issue, issues_db ++ [new_issue]).

(** ** update_issue *)

(** One item of [model_dump(exclude_unset=True)]. *)
Inductive item :=
  | item_title (v : option string)
  | item_description (v : option string)
  | item_status (v : option IssueStatus)
  | item_priority (v : option IssuePriority)
  | item_assignee (v : option string).

Definition dump_field {A} (mk : option A → item) (f : field A) : list item :=
  match f with
  | absent => []
  | present v => [mk v]
  end.

Definition model_dump_exclude_unset (u : IssueUpdate) : list item :=
  dump_field item_title (upd_title u)
  ++ dump_field item_description (upd_description u)
  ++ dump_field item_status (upd_status u)
  ++ dump_field item_priority (upd_priority u)
  ++ dump_field item_assignee (upd_assignee u).

Definition setattr (issue : Issue) (it : item) : Issue :=
  match it with
  | item_title v =>
      {| title := v; description := description issue; status := status issue;
         priority := priority issue; assignee := assignee issue;
         id := id issue; created_at := created_at issue;
         updated_at := updated_at issue |}
  | item_description v =>
      {| title := title issue; description := v; status := status issue;
         priority := priority issue; assignee := assignee issue;
         id := id issue; created_at := created_at issue;
         updated_at := updated_at issue |}
  | item_status v =>
      {| title := title issue; description := description issue; status := v;
         priority := priority issue; assignee := assignee issue;
         id := id issue; created_at := created_at issue;
         updated_at := updated_at issue |}
  | item_priority v =>
      {| title := title issue; description := description issue;
         status := status issue; priority := v; assignee := assignee issue;
         id := id issue; created_at := created_at issue;
         updated_at := updated_at issue |}
  | item_assignee v =>
      {| title := title issue; description := description issue;
         status := status issue; priority := priority issue; assignee := v;
         id := id issue; created_at := created_at issue;
         updated_at := updated_at issue |}
  end.

Definition set_updated_at (issue : Issue) (t : datetime) : Issue :=
  {| title := title issue; description := description issue;
     status := status issue; priority := priority issue;
     assignee := assignee issue; id := id issue;
     created_at := created_at issue; updated_at := t |}.

Definition not_found (issue_id : string) : exn :=
  HTTPException 404
    {| error := "Issue not found";
       message := "No issue exists with ID: " +:+ issue_id;
       suggestion :=
         "Check the issue ID or use GET /issues to see all available issues" |}.

(** [next((issue for issue in issues_db if issue.id == issue_id), None)],
    with the position of the object in the list. *)
Definition find_issue (issue_id : string) (issues_db : list Issue)
    : option (nat * Issue) :=
  list_find (λ issue, id issue = issue_id) issues_db.

(** The object found is mutated in place, so the list sees the new value
    at the same position. *)
Definition update_issue (issue_id : string) (issue_update : IssueUpdate)
    (now : datetime) (issues_db : list Issue) : result Issue * list Issue :=
  match find_issue issue_id issues_db with
  | None => (Raise (not_found issue_id), issues_db)
  | Some (i, issue) =>
      let update_data := model_dump_exclude_unset issue_update in
      let issue := foldl setattr issue update_data in
      let issue := set_updated_at issue now in
      (Ok issue, <[i := issue]> issues_db)
  end.

(** ** get_issues *)

(** The query parameters of [GET /issues]. *)
Module Query.
Record t := {
  search : option string;
  status : option IssueStatus;
  priority : option IssuePriority;
  assignee : option string;
  sort_by : option string;
  sort_order : option string;
  page : Z;
  page_size : Z;
}.

(** The declared defaults, used for the parameters a request omits. *)
Definition default : t :=
  {| search := None; status := None; priority := None; assignee := None;
     sort_by := Some "updated_at"; sort_order := Some "desc";
     page := 1; page_size := 10 |}.

Definition with_page (q : t) (p : Z) : t :=
  {| search := search q; status := status q; priority := priority q;
     assignee := assignee q; sort_by := sort_by q;
     sort_order := sort_order q; page := p; page_size := page_size q |}.

Definition with_sort_order (q : t) (o : option string) : t :=
  {| search := search q; status := status q; priority := priority q;
     assignee := assignee q; sort_by := sort_by q;
     sort_order := o; page := page q; page_size := page_size q |}.

(** [page: ge=1], [page_size: ge=1, le=100] *)
Definition valid (q : t) : Prop :=
  1 ≤ page q ∧ 1 ≤ page_size q ≤ 100.
End Query.

Record Pagination := {
  page : Z;
  pageSize : Z;
  totalCount : Z;
  totalPages : Z;
}.

Record FiltersApplied := {
  fa_search : option string;
  fa_status : option IssueStatus;
  fa_priority : option IssuePriority;
  fa_assignee : option string;
}.

Record Sorting := {
  sort_by : option string;
  sort_order : option string;
}.

Record Response := {
  issues : list Issue;
  pagination : Pagination;
  filters_applied : FiltersApplied;
  sorting : Sorting;
}.

(** *** Search and filters *)

(** [issue.title.lower()]; raises when the attribute holds [None]. *)
Definition title_lower `{!StrLower} (issue : Issue) : result string :=
  match title issue with
  | Some s => Ok (lower s)
  | None => Raise AttributeError
  end.

(** [o and sub in o.lower()] *)
Definition and_in_lower `{!StrLower} (sub : string) (o : option string) : bool :=
  match o with
  | Some s => if String.eqb s "" then false else str_in sub (lower s)
  | None => false
  end.

Definition search_matches `{!StrLower} (search_lower : string) (issue : Issue)
    : result bool :=
  t ← title_lower issue;
  Ok (str_in search_lower t
      || and_in_lower search_lower (description issue)
      || and_in_lower search_lower (assignee issue)).

(** A list comprehension whose condition may raise. *)
Fixpoint filterM {A} (p : A → result bool) (l : list A) : result (list A) :=
  match l with
  | [] => Ok []
  | x :: l' =>
      b ← p x;
      rest ← filterM p l';
      Ok (if b : bool then x :: rest else rest)
  end.

Definition apply_search `{!StrLower} (search : option string) (l : list Issue)
    : result (list Issue) :=
  if truthy search then
    let search_lower := lower (default "" search) in
    filterM (search_matches search_lower) l
  else Ok l.

(** [if status: ...]; an enum member is always truthy. *)
Definition filter_status (status_ : option IssueStatus) (l : list Issue)
    : list Issue :=
  match status_ with
  | Some st => filter (λ issue, status issue = Some st) l
  | None => l
  end.

(** [if priority: ...] *)
Definition filter_priority (priority_ : option IssuePriority)
    (l : list Issue) : list Issue :=
  match priority_ with
  | Some pr => filter (λ issue, priority issue = Some pr) l
  | None => l
  end.

(** [if assignee: ...] *)
Definition filter_assignee `{!StrLower} (assignee_ : option string) (l : list Issue)
    : list Issue :=
  if truthy assignee_ then
    let a := default "" assignee_ in
    filter (λ issue, and_in_lower (lower a) (assignee issue)) l
  else l.

Definition apply_filters `{!StrLower} (q : Query.t) (l : list Issue) : list Issue :=
  let l := filter_status (Query.status q) l in
  let l := filter_priority (Query.priority q) l in
  filter_assignee (Query.assignee q) l.

(** *** Sorting *)

(** [list.sort(key=..., reverse=...)]: the keys are computed first, once per
    element; the sort is stable; with [reverse] the list is reversed, sorted
    and reversed again, which keeps equal keys in their original order. *)
Section list_sort.
Context {A K : Type} (leb : K → K → bool).

Fixpoint insort (x : K * A) (l : list (K * A)) : list (K * A) :=
  match l with
  | [] => [x]
  | y :: l' => if leb x.1 y.1 then x :: y :: l' else y :: insort x l'
  end.

Definition stable_sort (l : list (K * A)) : list (K * A) :=
  foldr insort [] l.

Definition sort_keyed (descending : bool) (l : list (K * A))
    : list (K * A) :=
  if descending then reverse (stable_sort (reverse l)) else stable_sort l.

Definition list_sort (key : A → result K) (descending : bool) (l : list A)
    : result (list A) :=
  keyed ← mapM (λ x : A, k ← key x; Ok (k, x)) l;
  Ok (snd <$> sort_keyed descending keyed).
End list_sort.

Definition status_order : gmap string Z :=
  {[ "open" := 1; "in-progress" := 2; "closed" := 3 ]}.

Definition priority_order : gmap string Z :=
  {[ "low" := 1; "medium" := 2; "high" := 3; "critical" := 4 ]}.

(** [status_order.get(x.status, 0)] *)
Definition status_key (x : Issue) : Z :=
  default 0 (status x ≫= λ s, status_order !! IssueStatus_value s).

(** [priority_order.get(x.priority, 0)] *)
Definition priority_key (x : Issue) : Z :=
  default 0 (priority x ≫= λ p, priority_order !! IssuePriority_value p).

(** The keys are compared by [<]: integers and instants by value, strings
    character by character, which on encodings is [String.leb], byte by
    byte. *)
Definition apply_sorting `{!StrLower} (sort_by sort_order : option string)
    (l : list Issue) : result (list Issue) :=
  let reverse := bool_decide (sort_order = Some "desc") in
  if decide (sort_by = Some "title") then
    list_sort String.leb title_lower reverse l
  else if decide (sort_by = Some "status") then
    list_sort Z.leb (λ x, Ok (status_key x)) reverse l
  else if decide (sort_by = Some "priority") then
    list_sort Z.leb (λ x, Ok (priority_key x)) reverse l
  else if decide (sort_by = Some "assignee") then
    list_sort String.leb (λ x, Ok (or_empty (assignee x))) reverse l
  else if decide (sort_by = Some "created_at") then
    list_sort Z.leb (λ x, Ok (created_at x)) reverse l
  else
    list_sort Z.leb (λ x, Ok (updated_at x)) reverse l.

(** *** Pagination *)

(** A slice bound, brought into [0, len] as list slicing does. *)
Definition slice_bound (len i : Z) : Z :=
  if i <? 0 then Z.max 0 (i + len) else Z.min i len.

(** [l[start:stop]] *)
Definition slice {A} (l : list A) (start stop : Z) : list A :=
  let len := Z.of_nat (length l) in
  let lo := slice_bound len start in
  let hi := slice_bound len stop in
  take (Z.to_nat (hi - lo)) (drop (Z.to_nat lo) l).

(** [a // b] *)
Definition floordiv (a b : Z) : result Z :=
  if b =? 0 then Raise ZeroDivisionError else Ok (a / b).

(** The search and filter steps of [get_issues]. *)
Definition search_and_filter `{!StrLower} (q : Query.t) (issues_db : list Issue)
    : result (list Issue) :=
  filtered_issues ← apply_search (Query.search q) issues_db;
  Ok (apply_filters q filtered_issues).

(** The list that [get_issues] paginates: searched, filtered and sorted. *)
Definition filtered_sorted `{!StrLower} (q : Query.t) (issues_db : list Issue)
    : result (list Issue) :=
  filtered_issues ← search_and_filter q issues_db;
  apply_sorting (Query.sort_by q) (Query.sort_order q) filtered_issues.

Definition get_issues `{!StrLower} (q : Query.t) (issues_db : list Issue)
    : result Response :=
  filtered_issues ← filtered_sorted q issues_db;
  let total_count := Z.of_nat (length filtered_issues) in
  let start_index := (Query.page q - 1) * Query.page_size q in
  let end_index := start_index + Query.page_size q in
  let paginated_issues := slice filtered_issues start_index end_index in
  total_pages ← floordiv (total_count + Query.page_size q - 1)
                         (Query.page_size q);
  Ok {| issues := paginated_issues;
        pagination :=
          {| page := Query.page q;
             pageSize := Query.page_size q;
             totalCount := total_count;
             totalPages := total_pages |};
        filters_applied :=
          {| fa_search := Query.search q;
             fa_status := Query.status q;
             fa_priority := Query.priority q;
             fa_assignee := Query.assignee q |};
        sorting :=
          {| sort_by := Query.sort_by q;
             sort_order := Query.sort_order q |} |}.

(** ** get_issue *)

Definition get_issue (issue_id : string) (issues_db : list Issue)
    : result Issue :=
  match find_issue issue_id issues_db with
  | Some (_, issue) => Ok issue
  | None => Raise (not_found issue_id)
  end.

(** ** health_check *)

Module Health.
Record t := {
  status : string;
  timestamp : string;
  database : string;
  total_issues : Z;
}.
End Health.

(** [isoformat] stands for [datetime.isoformat], the rendering of the clock
    reading as text. *)
Definition health_check (isoformat : datetime → string) (now : datetime)
    (issues_db : list Issue) : Health.t :=
  {| Health.status := "ok";
     Health.timestamp := isoformat now;
     Health.database := "connected";
     Health.total_issues := Z.of_nat (length issues_db) |}.

(** ** Request traces *)

(** A request to the store, with what the handler reads from its
    environment: the fresh identifier and the clock readings, in the order
    of the calls. *)
Inductive request :=
  | Create (uuid : string) (now1 now2 : datetime) (issue_data : IssueCreate)
  | Update (issue_id : string) (issue_update : IssueUpdate) (now : datetime).

Definition handle (issues_db : list Issue) (r : request) : list Issue :=
  match r with
  | Create uuid now1 now2 issue_data =>
      (create_issue uuid now1 now2 issue_data issues_db).2
  | Update issue_id issue_update now =>
      (update_issue issue_id issue_update now issues_db).2
  end.

(** The store after a sequence of requests, from the empty store. *)
Definition run (rs : list request) : list Issue := foldl handle [] rs.

(** The request passes the validation of its body. *)
Definition valid_request (r : request) : bool :=
  match r with
  | Create _ _ _ issue_data => valid_IssueCreate issue_data
  | Update _ issue_update _ => valid_IssueUpdate issue_update
  end.

Definition clock_readings (r : request) : list datetime :=
  match r with
  | Create _ now1 now2 _ => [now1; now2]
  | Update _ _ now => [now]
  end.

(** The clock never goes back over the run. *)
Definition clock_monotone (rs : list request) : Prop :=
  Sorted Z.le (rs ≫= clock_readings).

(** ** The properties, in the words of the specification *)

(** [sub] occurs in [s]. *)
Definition is_substring (sub s : string) : Prop :=
  ∃ pre post, s = pre +:+ sub +:+ post.

(** [term] occurs in the field, ignoring case; an absent field has no
    occurrence. *)
Definition appears_in `{!StrLower} (term : string) (o : option string) : Prop :=
  ∃ s, o = Some s ∧ is_substring (lower term) (lower s).

(** The condition for a record to survive search and filters, each
    parameter counting as present when it is given. *)
Definition survives_as_stated `{!StrLower} (q : Query.t) (r : Issue) : Prop :=
  (∀ s, Query.search q = Some s →
     appears_in s (title r) ∨ appears_in s (description r)
     ∨ appears_in s (assignee r))
  ∧ (∀ st, Query.status q = Some st → status r = Some st)
  ∧ (∀ pr, Query.priority q = Some pr → priority r = Some pr)
  ∧ (∀ a, Query.assignee q = Some a → appears_in a (assignee r)).

(** The same, with an empty [assignee] filter counting as absent. *)
Definition survives `{!StrLower} (q : Query.t) (r : Issue) : Prop :=
  (∀ s, Query.search q = Some s →
     appears_in s (title r) ∨ appears_in s (description r)
     ∨ appears_in s (assignee r))
  ∧ (∀ st, Query.status q = Some st → status r = Some st)
  ∧ (∀ pr, Query.priority q = Some pr → priority r = Some pr)
  ∧ (∀ a, Query.assignee q = Some a → a ≠ "" → appears_in a (assignee r)).

Definition has_title (r : Issue) : Prop := is_Some (title r).

(** The value of a field after a partial update. *)
Definition merged {A} (f : field A) (old : option A) : option A :=
  match f with
  | absent => old
  | present v => v
  end.

(** The request [{priority: p}]. *)
Definition only_priority (p : IssuePriority) : IssueUpdate :=
  {| upd_title := absent; upd_description := absent; upd_status := absent;
     upd_priority := present (Some p); upd_assignee := absent |}.

(** The request [{}]. *)
Definition empty_update : IssueUpdate :=
  {| upd_title := absent; upd_description := absent; upd_status := absent;
     upd_priority := absent; upd_assignee := absent |}.

(** The request [{title: null}]. *)
Definition null_title : IssueUpdate :=
  {| upd_title := present None; upd_description := absent;
     upd_status := absent; upd_priority := absent; upd_assignee := absent |}.

(** The fixed ranks of the two enums. *)
Definition status_rank (s : IssueStatus) : Z :=
  match s with open => 1 | in_progress => 2 | closed => 3 end.

Definition priority_rank (p : IssuePriority) : Z :=
  match p with low => 1 | medium => 2 | high => 3 | critical => 4 end.

(** The rank of a record on each enum; a record whose field is null ranks
    below all. *)
Definition status_rank_of (issue : Issue) : Z :=
  from_option status_rank 0 (status issue).

Definition priority_rank_of (issue : Issue) : Z :=
  from_option priority_rank 0 (priority issue).

(** [out] is [l] sorted on [rank] in the direction of [sort_order], records
    of equal rank keeping the order they have in [l]. *)
Definition sorted_stably (rank : Issue → Z) (sort_order : option string)
    (l out : list Issue) : Prop :=
  out ≡ₚ l
  ∧ (sort_order = Some "asc" →
     StronglySorted (λ a b, rank a ≤ rank b) out)
  ∧ (sort_order = Some "desc" →
     StronglySorted (λ a b, rank b ≤ rank a) out)
  ∧ ∀ v, filter (λ a, rank a = v) out = filter (λ a, rank a = v) l.

(** [n] is the ceiling of [a / b]. *)
Definition is_ceil_div (a b n : Z) : Prop := (n - 1) * b < a ≤ n * b.

(** The order of two records on the key that [sort_by] selects: the title
    ignoring case, the rank of the status or of the priority, the assignee
    with an absent one counting as the empty string, or one of the two
    instants, [updated_at] when [sort_by] names none of the others. *)
Definition key_le `{!StrLower} (sort_by : option string) (a b : Issue) : Prop :=
  if decide (sort_by = Some "title") then
    ∃ s t, title a = Some s ∧ title b = Some t
           ∧ String.leb (lower s) (lower t) = true
  else if decide (sort_by = Some "status") then
    status_rank_of a ≤ status_rank_of b
  else if decide (sort_by = Some "priority") then
    priority_rank_of a ≤ priority_rank_of b
  else if decide (sort_by = Some "assignee") then
    String.leb (default "" (assignee a)) (default "" (assignee b)) = true
  else if decide (sort_by = Some "created_at") then
    created_at a ≤ created_at b
  else updated_at a ≤ updated_at b.

(** The pages [1 .. n] of a query, in order. *)
Definition pages `{!StrLower} (q : Query.t) (issues_db : list Issue) (n : Z)
    : result (list (list Issue)) :=
  mapM (λ p, issues <$> get_issues (Query.with_page q p) issues_db)
       (Z.of_nat <$> seq 1 (Z.to_nat n)).

(** A stored title that is a non-empty string. *)
Definition title_nonempty (issue : Issue) : Prop :=
  ∃ s, title issue = Some s ∧ s ≠ "".

(** The request is an update whose body has [title: null]. *)
Definition sets_title_null (r : request) : Prop :=
  match r with
  | Update _ issue_update _ => upd_title issue_update = present None
  | Create _ _ _ _ => False
  end.

(** ** Definitions for the proofs *)

(** The condition of the search comprehension, on a record with a title. *)
Definition search_cond `{!StrLower} (search_lower : string) (r : Issue) : bool :=
  str_in search_lower (lower (default "" (title r)))
  || and_in_lower search_lower (description r)
  || and_in_lower search_lower (assignee r).

(** The title in lower case, for a record that has one. *)
Definition title_key `{!StrLower} (x : Issue) : string := lower (default "" (title x)).

(** The order of two keyed elements under a comparison of keys. *)
Definition keyed_le {A K} (leb : K → K → bool) (p q : K * A) : Prop :=
  leb p.1 q.1 = true.

(** The element carries the key that [k] computes for it. *)
Definition keyed_by {A K} (k : A → K) (p : K * A) : Prop := p.1 = k p.2.

(** [decorate k l] pairs each element with its key. *)
Definition decorate {A K} (k : A → K) (l : list A) : list (K * A) :=
  (λ x, (k x, x)) <$> l.

(** Both timestamps of a record are readings of the clock. *)
Definition stamped_from (readings : list datetime) (issue : Issue) : Prop :=
  created_at issue ∈ readings ∧ updated_at issue ∈ readings.

(** The identifiers handed to the [Create] requests of a trace, in order. *)
Definition created_uuids (rs : list request) : list string :=
  rs ≫= λ r,
    match r with
    | Create uuid _ _ _ => [uuid]
    | Update _ _ _ => []
    end.

(** The creation instants of a trace, in order. *)
Definition creation_instants (rs : list request) : list datetime :=
  rs ≫= λ r,
    match r with
    | Create _ now1 _ _ => [now1]
    | Update _ _ _ => []
    end.

(** A text field within its declared length, when it holds a string. *)
Definition within (lo hi : nat) (o : option string) : Prop :=
  ∀ s, o = Some s → (lo ≤ len s ≤ hi)%nat.

(** The declared length limits of the three text fields. *)
Definition within_limits (issue : Issue) : Prop :=
  within 1 200 (title issue)
  ∧ within 0 2000 (description issue)
  ∧ within 0 100 (assignee issue).

(** The query with another [sort_by]. *)
Definition with_sort_by (q : Query.t) (sb : option string) : Query.t :=
  {| Query.search := Query.search q; Query.status := Query.status q;
     Query.priority := Query.priority q; Query.assignee := Query.assignee q;
     Query.sort_by := sb; Query.sort_order := Query.sort_order q;
     Query.page := Query.page q; Query.page_size := Query.page_size q |}.

(** The query with another search term and another assignee filter. *)
Definition with_terms (q : Query.t) (search assignee_ : option string)
    : Query.t :=
  {| Query.search := search; Query.status := Query.status q;
     Query.priority := Query.priority q; Query.assignee := assignee_;
     Query.sort_by := Query.sort_by q; Query.sort_order := Query.sort_order q;
     Query.page := Query.page q; Query.page_size := Query.page_size q |}.

(** The [sort_by] values that select a key of their own. *)
Definition named_sort_keys : list (option string) :=
  [Some "title"; Some "status"; Some "priority"; Some "assignee";
   Some "created_at"].


(** The request is an update whose body has [status: null] or
    [priority: null]. *)
Definition sets_enum_null (r : request) : Prop :=
  match r with
  | Update _ issue_update _ =>
      upd_status issue_update = present None
      ∨ upd_priority issue_update = present None
  | Create _ _ _ _ => False
  end.

(** Both enum fields hold a member. *)
Definition enums_set (issue : Issue) : Prop :=
  is_Some (status issue) ∧ is_Some (priority issue).

(** ** Sample data *)

(** The samples are ASCII text, on which [str.lower] changes the letters
    A to Z only. This instance of the parameter runs the model on them; the
    theorems about the code are stated for every instance. *)
Definition fold_ascii (c : ascii) : ascii :=
  let n := nat_of_ascii c in
  if ((65 <=? n)%nat && (n <=? 90)%nat)%bool then ascii_of_nat (n + 32) else c.

Fixpoint fold_ascii_text (s : string) : string :=
  match s with
  | EmptyString => EmptyString
  | String c s' => String (fold_ascii c) (fold_ascii_text s')
  end.

#[global, refine] Instance ascii_text : StrLower :=
  {| lower := fold_ascii_text |}.
Proof.
  - reflexivity.
  - by intros [|c s].
Defined.

(** The two issues of the specification's example scenario, created at
    instants 1 and 2, and an unassigned third. *)
Definition issue_A : Issue :=
  {| title := Some "Fix login bug"; description := None;
     status := Some open; priority := Some medium; assignee := None;
     id := "A"; created_at := 1; updated_at := 1 |}.

Definition issue_B : Issue :=
  {| title := Some "Add dark mode"; description := Some "Theme switch";
     status := Some open; priority := Some critical;
     assignee := Some "Bob@example.com";
     id := "B"; created_at := 2; updated_at := 2 |}.

Definition issue_C : Issue :=
  {| title := Some "Update docs"; description := None;
     status := Some closed; priority := Some medium; assignee := None;
     id := "C"; created_at := 3; updated_at := 3 |}.

Definition sample_db : list Issue := [issue_A; issue_B; issue_C].

(** [GET /issues?assignee=]: the filter is given, and empty. *)
Definition empty_assignee_query : Query.t :=
  {| Query.search := None; Query.status := None; Query.priority := None;
     Query.assignee := Some "";
     Query.sort_by := Some "updated_at"; Query.sort_order := Some "desc";
     Query.page := 1; Query.page_size := 10 |}.

(** [GET /issues?search=LOGIN&status=open] *)
Definition login_query : Query.t :=
  {| Query.search := Some "LOGIN"; Query.status := Some open;
     Query.priority := None; Query.assignee := None;
     Query.sort_by := Some "updated_at"; Query.sort_order := Some "desc";
     Query.page := 1; Query.page_size := 10 |}.

Definition login_bug : IssueCreate :=
  {| new_title := "Fix login bug"; new_description := None;
     new_status := open; new_priority := medium; new_assignee := None |}.

(** [POST /issues] and then [PUT /issues/A] with the body [{title: null}]. *)
Definition null_title_trace : list request :=
  [Create "A" 1 1 login_bug; Update "A" null_title 2].

(** An issue created at instants 10 and 11 of the clock and updated when the
    clock reads 5. *)
Definition clock_back_trace : list request :=
  [Create "A" 10 11 login_bug; Update "A" empty_update 5].

(** The same requests with the clock moving on. *)
Definition clock_on_trace : list request :=
  [Create "A" 10 11 login_bug; Update "A" empty_update 15].

(** Priorities whose alphabetical order differs from their rank. *)
Definition with_priority (uuid : string) (p : IssuePriority) : Issue :=
  {| title := Some "t"; description := None; status := Some open;
     priority := Some p; assignee := None; id := uuid;
     created_at := 0; updated_at := 0 |}.

Definition priority_mix : list Issue :=
  [with_priority "1" high; with_priority "2" critical;
   with_priority "3" low; with_priority "4" high;
   with_priority "5" medium].

(** [GET /issues?sort_by=title&sort_order=ASC] *)
Definition upper_asc_query : Query.t :=
  {| Query.search := None; Query.status := None; Query.priority := None;
     Query.assignee := None;
     Query.sort_by := Some "title"; Query.sort_order := Some "ASC";
     Query.page := 1; Query.page_size := 10 |}.

(** [GET /issues?sort_by=created_at&sort_order=asc&page=2&page_size=2] *)
Definition second_page_query : Query.t :=
  {| Query.search := None; Query.status := None; Query.priority := None;
     Query.assignee := None;
     Query.sort_by := Some "created_at"; Query.sort_order := Some "asc";
     Query.page := 2; Query.page_size := 2 |}.

(** [GET /issues?sort_by=priority], with the default descending order. *)
Definition priority_desc_query : Query.t :=
  {| Query.search := None; Query.status := None; Query.priority := None;
     Query.assignee := None;
     Query.sort_by := Some "priority"; Query.sort_order := Some "desc";
     Query.page := 1; Query.page_size := 10 |}.

(** A body whose text is not ASCII: the title has 9 characters in 10 bytes. *)
Definition cafe_menu : IssueCreate :=
  {| new_title := "Café menu"; new_description := Some "Crème brûlée";
     new_status := open; new_priority := medium;
     new_assignee := Some "zoë@example.com" |}.

(** [{title: "Überprüfung", assignee: null}] *)
Definition retitle : IssueUpdate :=
  {| upd_title := present (Some "Überprüfung"); upd_description := absent;
     upd_status := absent; upd_priority := absent;
     upd_assignee := present None |}.

Definition cafe_trace : list request :=
  [Create "A" 1 1 cafe_menu; Create "B" 2 2 login_bug;
   Update "A" retitle 3].

(** A title of 150 characters in 300 bytes. *)
Definition long_title : string := String.concat "" (replicate 150 "é").

(** * Properties *)

(** ** Strings *)

Lemma append_cons c s t : String c s +:+ t = String c (s +:+ t).
Proof. reflexivity. Qed.

Lemma prefix_iff sub s :
  String.prefix sub s = true ↔ ∃ post, s = sub +:+ post.
Proof.
  revert s. induction sub as [|c sub IH]; intros s; simpl.
  - destruct s; split; eauto.
  - destruct s as [|c' s]; simpl.
    + split; [done|]. by intros [post ?].
    + destruct (ascii_dec c c') as [->|Hne].
      * rewrite IH. split; intros [post Hp]; exists post;
          rewrite append_cons in *; congruence.
      * split; [done|]. intros [post Hp]. rewrite append_cons in Hp.
        congruence.
Qed.

Lemma str_in_nil sub : str_in sub "" = String.prefix sub "".
Proof. unfold str_in. apply orb_false_r. Qed.

Lemma str_in_cons sub c s :
  str_in sub (String c s) = String.prefix sub (String c s) || str_in sub s.
Proof. reflexivity. Qed.

Lemma str_in_iff sub s : str_in sub s = true ↔ is_substring sub s.
Proof.
  induction s as [|c s IH].
  - rewrite str_in_nil, prefix_iff. split.
    + intros [post Hp]. by exists "", post.
    + intros (pre & post & Hp). destruct pre; [by exists post|done].
  - rewrite str_in_cons, orb_true_iff, prefix_iff, IH. split.
    + intros [[post Hp]|(pre & post & Hp)].
      * by exists "", post.
      * exists (String c pre), post. rewrite append_cons. congruence.
    + intros (pre & post & Hp). destruct pre as [|c' pre].
      * left. by exists post.
      * right. exists pre, post. rewrite append_cons in Hp. congruence.
Qed.

Lemma is_substring_empty s : is_substring "" s.
Proof. by exists "", s. Qed.

Lemma is_substring_of_empty sub : is_substring sub "" → sub = "".
Proof.
  intros (pre & post & Hp). destruct pre; [|done]. by destruct sub.
Qed.

Lemma truthy_Some (o : option string) :
  truthy o = true ↔ ∃ s, o = Some s ∧ s ≠ "".
Proof.
  destruct o as [s|]; simpl.
  - rewrite negb_true_iff, String.eqb_neq. naive_solver.
  - naive_solver.
Qed.

Lemma truthy_false (o : option string) :
  truthy o = false ↔ o = None ∨ o = Some "".
Proof.
  destruct o as [s|]; simpl.
  - rewrite negb_false_iff, String.eqb_eq. naive_solver.
  - naive_solver.
Qed.

(** [o and term.lower() in o.lower()] is the occurrence of a non-empty
    term in the field. *)
Lemma and_in_lower_appears `{!StrLower} term o :
  term ≠ "" → and_in_lower (lower term) o = true ↔ appears_in term o.
Proof.
  intros Hne. unfold and_in_lower, appears_in.
  destruct o as [s|].
  - destruct (String.eqb_spec s "") as [->|Hs].
    + split; [done|]. intros (s & [= <-] & Hsub).
      rewrite lower_empty in Hsub. apply is_substring_of_empty in Hsub.
      by apply lower_nonempty in Hsub.
    + rewrite str_in_iff. split; [eauto|]. by intros (? & [= <-] & ?).
  - split; [done|]. by intros (? & ? & ?).
Qed.

(** ** Search and filters *)

Lemma filterM_total {A} (p : A → result bool) (f : A → bool) l :
  Forall (λ x, p x = Ok (f x)) l → filterM p l = Ok (filter f l).
Proof.
  induction 1 as [|x l Hx _ IH]; [done|].
  simpl. rewrite Hx, IH. simpl. rewrite filter_cons.
  by destruct (f x).
Qed.

Lemma search_matches_titled `{!StrLower} search_lower r :
  has_title r → search_matches search_lower r = Ok (search_cond search_lower r).
Proof.
  intros [t Ht]. unfold search_matches, search_cond, title_lower.
  by rewrite Ht.
Qed.

(** A record without a title makes the search raise. *)
Lemma search_matches_untitled `{!StrLower} search_lower r :
  title r = None → search_matches search_lower r = Raise AttributeError.
Proof. intros Ht. unfold search_matches, title_lower. by rewrite Ht. Qed.

Lemma appears_in_Some `{!StrLower} term s :
  appears_in term (Some s) ↔ is_substring (lower term) (lower s).
Proof.
  unfold appears_in. split; [by intros (? & [= <-] & ?)|eauto].
Qed.

Lemma search_cond_appears `{!StrLower} s r :
  has_title r → s ≠ "" →
  search_cond (lower s) r = true ↔
  appears_in s (title r) ∨ appears_in s (description r)
  ∨ appears_in s (assignee r).
Proof.
  intros [t Ht] Hs. unfold search_cond.
  rewrite !orb_true_iff, !and_in_lower_appears by done.
  rewrite Ht. simpl. rewrite str_in_iff, appears_in_Some. tauto.
Qed.

Lemma apply_search_titled `{!StrLower} search l :
  Forall has_title l →
  ∃ out, apply_search search l = Ok out ∧ sublist out l ∧
    ∀ r, r ∈ out ↔ r ∈ l ∧
      ∀ s, search = Some s →
        appears_in s (title r) ∨ appears_in s (description r)
        ∨ appears_in s (assignee r).
Proof.
  intros Hl. unfold apply_search.
  destruct (truthy search) eqn:Ht.
  - apply truthy_Some in Ht as (s & -> & Hs). simpl.
    exists (filter (search_cond (lower s)) l). split; [|split].
    + apply filterM_total. eapply Forall_impl; [done|].
      intros r Hr. by apply search_matches_titled.
    + apply sublist_filter.
    + intros r. rewrite list_elem_of_filter. split.
      * intros [Hc Hin]. split; [done|]. intros ? [= <-].
        rewrite Forall_forall in Hl.
        apply search_cond_appears; [by apply Hl|done|].
        by apply Is_true_true.
      * intros [Hin Hc]. split; [|done]. apply Is_true_true.
        rewrite Forall_forall in Hl.
        apply search_cond_appears; [by apply Hl|done|by apply Hc].
  - exists l. split; [done|]. split; [done|].
    intros r. split; [|naive_solver]. intros Hin. split; [done|].
    intros s ->. apply truthy_false in Ht as [[=]|[= ->]].
    left. rewrite Forall_forall in Hl. destruct (Hl r Hin) as [t Hr].
    exists t. split; [done|]. rewrite lower_empty. apply is_substring_empty.
Qed.

Lemma filter_status_spec st l :
  sublist (filter_status st l) l ∧
  ∀ r, r ∈ filter_status st l ↔ r ∈ l ∧ ∀ v, st = Some v → status r = Some v.
Proof.
  destruct st as [v|]; simpl.
  - split; [apply sublist_filter|]. intros r.
    rewrite list_elem_of_filter. naive_solver.
  - split; [done|]. naive_solver.
Qed.

Lemma filter_priority_spec pr l :
  sublist (filter_priority pr l) l ∧
  ∀ r, r ∈ filter_priority pr l ↔
    r ∈ l ∧ ∀ v, pr = Some v → priority r = Some v.
Proof.
  destruct pr as [v|]; simpl.
  - split; [apply sublist_filter|]. intros r.
    rewrite list_elem_of_filter. naive_solver.
  - split; [done|]. naive_solver.
Qed.

Lemma filter_assignee_spec `{!StrLower} a l :
  sublist (filter_assignee a l) l ∧
  ∀ r, r ∈ filter_assignee a l ↔
    r ∈ l ∧ ∀ v, a = Some v → v ≠ "" → appears_in v (assignee r).
Proof.
  unfold filter_assignee. destruct (truthy a) eqn:Ht.
  - apply truthy_Some in Ht as (v & -> & Hne). simpl.
    split; [apply sublist_filter|]. intros r.
    rewrite list_elem_of_filter, Is_true_true, and_in_lower_appears by done.
    naive_solver.
  - apply truthy_false in Ht. split; [done|]. naive_solver.
Qed.

Lemma apply_filters_spec `{!StrLower} q l :
  sublist (apply_filters q l) l ∧
  ∀ r, r ∈ apply_filters q l ↔ r ∈ l
    ∧ (∀ st, Query.status q = Some st → status r = Some st)
    ∧ (∀ pr, Query.priority q = Some pr → priority r = Some pr)
    ∧ (∀ a, Query.assignee q = Some a → a ≠ "" → appears_in a (assignee r)).
Proof.
  unfold apply_filters. split.
  - etrans; [apply filter_assignee_spec|].
    etrans; [apply filter_priority_spec|]. apply filter_status_spec.
  - intros r.
    rewrite (proj2 (filter_assignee_spec _ _)),
      (proj2 (filter_priority_spec _ _)), (proj2 (filter_status_spec _ _)).
    tauto.
Qed.

(** Search and filters drop records and keep the others in order, on any
    store. *)
Lemma filterM_sublist {A} (p : A → result bool) l out :
  filterM p l = Ok out → sublist out l.
Proof.
  revert out. induction l as [|x l IH]; intros out; simpl.
  - by intros [= <-].
  - destruct (p x) as [b|]; [|done]. simpl.
    destruct (filterM p l) as [rest|]; [|done]. simpl.
    intros [= <-]. destruct b; [apply sublist_skip|apply sublist_cons];
      by apply IH.
Qed.

Lemma search_and_filter_sublist `{!StrLower} q db l :
  search_and_filter q db = Ok l → sublist l db.
Proof.
  unfold search_and_filter.
  destruct (apply_search (Query.search q) db) as [l0|] eqn:Hs; [|done].
  simpl. intros [= <-]. etrans; [apply apply_filters_spec|].
  unfold apply_search in Hs. destruct (truthy (Query.search q)).
  - by eapply filterM_sublist.
  - by injection Hs as <-.
Qed.

(** The search of the example scenario keeps the one issue whose title
    has the term, whatever the case. *)
Example search_login :
  fmap (M := result) (fmap (M := list) id)
    (search_and_filter login_query sample_db) = Ok ["A"].
Proof. reflexivity. Qed.

(** The empty assignee filter is skipped whatever [lower] is. *)
Lemma empty_assignee_filter_skipped `{!StrLower} :
  search_and_filter empty_assignee_query [issue_A] = Ok [issue_A]
  ∧ ¬ survives_as_stated empty_assignee_query issue_A.
Proof.
  split; [reflexivity|].
  intros (_ & _ & _ & Ha). destruct (Ha "" eq_refl) as (s & Hs & _).
  discriminate Hs.
Qed.

(** C1, as stated, fails: with the [assignee] filter given as the empty
    string, the filter is skipped and an unassigned record survives, although
    the filter does not occur in an assignee of that record. *)
Lemma empty_assignee_filter_keeps_unassigned :
  search_and_filter empty_assignee_query [issue_A] = Ok [issue_A]
  ∧ ¬ survives_as_stated empty_assignee_query issue_A.
Proof. apply empty_assignee_filter_skipped. Qed.

(** C1 (amended): on a store whose records all have a title, a record
    survives the search-and-filter stage if and only if the search term, when
    given, occurs case-insensitively in its title, or in its description or
    assignee when present; its status equals the status filter, when given;
    its priority equals the priority filter, when given; and the assignee
    filter, when given and not empty, occurs case-insensitively in its
    assignee. The survivors keep their order. *)
Theorem search_filter_survivors `{!StrLower} q db :
  Forall has_title db →
  ∃ out, search_and_filter q db = Ok out ∧ sublist out db ∧
    ∀ r, r ∈ out ↔ r ∈ db ∧ survives q r.
Proof.
  intros Hdb. unfold search_and_filter.
  destruct (apply_search_titled (Query.search q) db Hdb)
    as (l & -> & Hsub & Hl).
  exists (apply_filters q l). split; [done|].
  destruct (apply_filters_spec q l) as [Hsub' Hf]. split.
  - by etrans.
  - intros r. rewrite Hf, Hl. unfold survives. tauto.
Qed.

Lemma search_filter_survivors_witness :
  Forall has_title sample_db ∧
  ∃ out, search_and_filter login_query sample_db = Ok out ∧
    sublist out sample_db ∧
    ∀ r, r ∈ out ↔ r ∈ sample_db ∧ survives login_query r.
Proof.
  assert (H : Forall has_title sample_db) by (repeat constructor; by eexists).
  split; [exact H|]. exact (search_filter_survivors login_query sample_db H).
Defined.

(** ** update_issue *)

(** The attributes of the object after the [setattr] loop. *)
Lemma setattr_loop_fields issue u :
  let issue' := foldl setattr issue (model_dump_exclude_unset u) in
  title issue' = merged (upd_title u) (title issue)
  ∧ description issue' = merged (upd_description u) (description issue)
  ∧ status issue' = merged (upd_status u) (status issue)
  ∧ priority issue' = merged (upd_priority u) (priority issue)
  ∧ assignee issue' = merged (upd_assignee u) (assignee issue)
  ∧ id issue' = id issue
  ∧ created_at issue' = created_at issue
  ∧ updated_at issue' = updated_at issue.
Proof. by destruct u as [[|?] [|?] [|?] [|?] [|?]]. Qed.

Lemma find_issue_Some issue_id db i issue :
  find_issue issue_id db = Some (i, issue) →
  db !! i = Some issue ∧ id issue = issue_id.
Proof. intros H. apply list_find_Some in H. tauto. Qed.

Lemma find_issue_None issue_id db :
  find_issue issue_id db = None ↔ ∀ issue, issue ∈ db → id issue ≠ issue_id.
Proof. unfold find_issue. by rewrite list_find_None, Forall_forall. Qed.

(** A successful update, step by step. *)
Lemma update_issue_found issue_id u now db i issue :
  find_issue issue_id db = Some (i, issue) →
  update_issue issue_id u now db =
    let issue' :=
      set_updated_at (foldl setattr issue (model_dump_exclude_unset u)) now in
    (Ok issue', <[i := issue']> db).
Proof. intros H. unfold update_issue. by rewrite H. Qed.

Lemma update_issue_missing issue_id u now db :
  find_issue issue_id db = None →
  update_issue issue_id u now db = (Raise (not_found issue_id), db).
Proof. intros H. unfold update_issue. by rewrite H. Qed.

(** An update replaces one element by one with the same [id] and
    [created_at], or leaves the list as it is. *)
Lemma update_issue_keeps_identity issue_id u now db :
  id <$> (update_issue issue_id u now db).2 = id <$> db
  ∧ created_at <$> (update_issue issue_id u now db).2 = created_at <$> db.
Proof.
  destruct (find_issue issue_id db) as [[i issue]|] eqn:Hf.
  - rewrite (update_issue_found _ _ _ _ _ _ Hf). simpl.
    apply find_issue_Some in Hf as [Hi _].
    destruct (setattr_loop_fields issue u) as (_ & _ & _ & _ & _ & Hid & Hc & _).
    rewrite !list_fmap_insert. simpl. rewrite Hid, Hc.
    split; apply list_insert_id; by rewrite list_lookup_fmap, Hi.
  - by rewrite update_issue_missing.
Qed.

(** C4: on an existing issue, an update sets each of the five fields that the
    request contains to the value of the request, null included, and leaves
    each field that the request omits as it was; no other record of the
    collection changes. In particular [{priority: high}] leaves title,
    description, status and assignee unchanged. *)
Theorem update_changes_present_fields issue_id u now db i issue :
  find_issue issue_id db = Some (i, issue) →
  ∃ issue',
    update_issue issue_id u now db = (Ok issue', <[i := issue']> db)
    ∧ <[i := issue']> db !! i = Some issue'
    ∧ (∀ j, j ≠ i → <[i := issue']> db !! j = db !! j)
    ∧ title issue' = merged (upd_title u) (title issue)
    ∧ description issue' = merged (upd_description u) (description issue)
    ∧ status issue' = merged (upd_status u) (status issue)
    ∧ priority issue' = merged (upd_priority u) (priority issue)
    ∧ assignee issue' = merged (upd_assignee u) (assignee issue)
    ∧ id issue' = id issue
    ∧ created_at issue' = created_at issue
    ∧ (u = only_priority high →
       title issue' = title issue ∧ description issue' = description issue
       ∧ status issue' = status issue ∧ assignee issue' = assignee issue
       ∧ priority issue' = Some high).
Proof.
  intros Hf. rewrite (update_issue_found _ _ _ _ _ _ Hf).
  apply find_issue_Some in Hf as [Hi _].
  destruct (setattr_loop_fields issue u)
    as (Ht & Hd & Hs & Hp & Ha & Hid & Hc & _).
  eexists. split; [reflexivity|]. split.
  { apply list_lookup_insert_eq. by eapply lookup_lt_Some. }
  split.
  { intros j Hj. by apply list_lookup_insert_ne. }
  simpl. repeat (split; [done|]).
  intros ->. by rewrite Ht, Hd, Hs, Hp, Ha.
Qed.

Lemma update_changes_present_fields_witness :
  find_issue "B" sample_db = Some (1%nat, issue_B) ∧
  ∃ issue',
    update_issue "B" (only_priority high) 7 sample_db =
      (Ok issue', <[1%nat := issue']> sample_db)
    ∧ title issue' = title issue_B
    ∧ priority issue' = Some high.
Proof.
  split; [reflexivity|].
  destruct (update_changes_present_fields "B" (only_priority high) 7
              sample_db 1%nat issue_B eq_refl)
    as (issue' & Hu & _ & _ & _ & _ & _ & _ & _ & _ & _ & Hp).
  exists issue'. destruct (Hp eq_refl) as (Ht & _ & _ & _ & Hpr). done.
Defined.

(** C5: an update whose id matches no record fails with a 404 whose body
    names the missing id, and the collection, with every record in it, is
    what it was before the request. *)
Theorem update_unknown_id_not_found issue_id u now db :
  (∀ issue, issue ∈ db → id issue ≠ issue_id) →
  update_issue issue_id u now db =
    (Raise (HTTPException 404
       {| error := "Issue not found";
          message := "No issue exists with ID: " +:+ issue_id;
          suggestion :=
            "Check the issue ID or use GET /issues to see all available issues"
       |}),
     db).
Proof. intros H. by apply update_issue_missing, find_issue_None. Qed.

Lemma update_unknown_id_not_found_witness :
  (∀ issue, issue ∈ sample_db → id issue ≠ "Z") ∧
  (update_issue "Z" null_title 7 sample_db).2 = sample_db.
Proof.
  assert (H : ∀ issue, issue ∈ sample_db → id issue ≠ "Z").
  { apply Forall_forall. by repeat constructor. }
  split; [exact H|].
  by rewrite (update_unknown_id_not_found "Z" null_title 7 sample_db H).
Defined.

(** C8: an update of an existing issue succeeds and returns the record with
    [updated_at] set to the clock reading of the request, whatever the
    request contains; with an empty request nothing else changes; [id] and
    [created_at] keep their values, in the updated record and in all others. *)
Theorem update_sets_updated_at issue_id u now db i issue :
  find_issue issue_id db = Some (i, issue) →
  ∃ issue' db',
    update_issue issue_id u now db = (Ok issue', db')
    ∧ db' !! i = Some issue'
    ∧ updated_at issue' = now
    ∧ id issue' = id issue
    ∧ created_at issue' = created_at issue
    ∧ (u = empty_update → issue' = set_updated_at issue now)
    ∧ id <$> db' = id <$> db
    ∧ created_at <$> db' = created_at <$> db.
Proof.
  intros Hf.
  destruct (update_issue_keeps_identity issue_id u now db) as [Hids Hcs].
  rewrite (update_issue_found _ _ _ _ _ _ Hf) in *. simpl in *.
  apply find_issue_Some in Hf as [Hi _].
  destruct (setattr_loop_fields issue u) as (_ & _ & _ & _ & _ & Hid & Hc & _).
  eexists _, _. split; [reflexivity|]. split.
  { apply list_lookup_insert_eq. by eapply lookup_lt_Some. }
  repeat (split; [done|]). split; [|done].
  by intros ->.
Qed.

Lemma update_sets_updated_at_witness :
  find_issue "A" sample_db = Some (0%nat, issue_A) ∧
  ∃ issue' db',
    update_issue "A" empty_update 7 sample_db = (Ok issue', db')
    ∧ updated_at issue' = 7
    ∧ issue' = set_updated_at issue_A 7.
Proof.
  split; [reflexivity|].
  destruct (update_sets_updated_at "A" empty_update 7 sample_db 0%nat
              issue_A eq_refl)
    as (issue' & db' & Hu & _ & Ht & _ & _ & He & _).
  exists issue', db'. split; [done|]. split; [done|]. by apply He.
Defined.

(** ** Reachable stores *)

Lemma run_snoc rs r : run (rs ++ [r]) = handle (run rs) r.
Proof. unfold run. by rewrite foldl_app. Qed.

Lemma len_between_1_nonempty hi s : len_between 1 hi s = true → s ≠ "".
Proof. intros H ->. done. Qed.

(** An invariant of the records that creation establishes and that the
    update of a record preserves holds in every reachable store. *)
Lemma run_invariant (P : list request → Issue → Prop) rs :
  (∀ rs r issue, P rs issue → P (rs ++ [r]) issue) →
  (∀ rs uuid now1 now2 d db,
     P (rs ++ [Create uuid now1 now2 d])
       (create_issue uuid now1 now2 d db).1) →
  (∀ rs issue_id u now issue,
     P rs issue →
     P (rs ++ [Update issue_id u now])
       (set_updated_at (foldl setattr issue (model_dump_exclude_unset u)) now)) →
  Forall (P rs) (run rs).
Proof.
  intros Hmono Hcreate Hupdate.
  induction rs as [|r rs IH] using rev_ind; [by constructor|].
  rewrite run_snoc.
  assert (IH' : Forall (P (rs ++ [r])) (run rs)).
  { eapply Forall_impl; [exact IH|]. intros issue. apply Hmono. }
  destruct r as [uuid now1 now2 d|issue_id u now]; simpl.
  - apply Forall_app. split; [done|]. constructor; [|constructor].
    apply (Hcreate rs uuid now1 now2 d (run rs)).
  - destruct (find_issue issue_id (run rs)) as [[i issue]|] eqn:Hf.
    + rewrite (update_issue_found _ _ _ _ _ _ Hf). simpl.
      apply Forall_insert; [done|]. apply Hupdate.
      apply find_issue_Some in Hf as [Hi _].
      rewrite Forall_forall in IH. apply IH.
      by eapply list_elem_of_lookup_2.
    + by rewrite update_issue_missing.
Qed.

(** *** Titles *)

(** Creation stores a non-empty title, and so does every update other than
    one that sets the title to null. *)
Lemma titles_nonempty_without_null rs :
  Forall (λ r, valid_request r = true ∧ ¬ sets_title_null r) rs →
  Forall title_nonempty (run rs).
Proof.
  intros Hrs.
  pose (P := λ (rs : list request) (issue : Issue),
    Forall (λ r, valid_request r = true ∧ ¬ sets_title_null r) rs →
    title_nonempty issue).
  assert (H : Forall (P rs) (run rs)).
  { apply run_invariant; unfold P.
    - intros rs0 r issue IH Hok. apply Forall_app in Hok as [Hok _]. auto.
    - intros rs0 uuid now1 now2 d db Hok.
      apply Forall_app in Hok as [_ Hok].
      apply Forall_singleton in Hok as [Hv _]. simpl in Hv.
      unfold valid_IssueCreate in Hv.
      apply andb_prop in Hv as [Hv _]. apply andb_prop in Hv as [Hv _].
      exists (new_title d). split; [done|].
      by eapply len_between_1_nonempty.
    - intros rs0 issue_id u now issue IH Hok.
      apply Forall_app in Hok as [Hok0 Hok].
      apply Forall_singleton in Hok as [Hv Hn]. simpl in Hv, Hn.
      destruct (IH Hok0) as (s & Hs & Hne).
      destruct (setattr_loop_fields issue u) as (Ht & _).
      unfold title_nonempty. simpl. rewrite Ht.
      unfold valid_IssueUpdate in Hv.
      apply andb_prop in Hv as [Hv _]. apply andb_prop in Hv as [Hv _].
      destruct (upd_title u) as [|[s'|]]; simpl in *.
      + eauto.
      + exists s'. split; [done|]. by eapply len_between_1_nonempty.
      + done. }
  eapply Forall_impl; [exact H|]. intros issue HP. by apply HP.
Qed.

(** C6 fails on the code: after a valid create, the valid update
    [{title: null}] is applied by the [setattr] loop and leaves the stored
    issue with a null title. *)
Theorem null_title_update_clears_title :
  Forall (λ r, valid_request r = true) null_title_trace
  ∧ title <$> run null_title_trace = [None]
  ∧ ¬ Forall title_nonempty (run null_title_trace).
Proof.
  split; [by repeat constructor|]. split; [reflexivity|].
  intros H. apply Forall_inv in H as (s & Hs & _). discriminate Hs.
Qed.

(** *** Timestamps *)

Lemma readings_snoc (rs : list request) r :
  (rs ++ [r]) ≫= clock_readings = (rs ≫= clock_readings) ++ clock_readings r.
Proof. rewrite bind_app. simpl. by rewrite app_nil_r. Qed.

Lemma clock_monotone_snoc rs r :
  clock_monotone (rs ++ [r]) →
  clock_monotone rs
  ∧ StronglySorted Z.le (clock_readings r)
  ∧ ∀ t1 t2, t1 ∈ rs ≫= clock_readings → t2 ∈ clock_readings r → t1 ≤ t2.
Proof.
  unfold clock_monotone. rewrite readings_snoc. intros H.
  apply Sorted_StronglySorted in H; [|apply _].
  apply StronglySorted_app in H as (H12 & H1 & H2).
  split; [by apply StronglySorted_Sorted|]. split; [done|].
  intros t1 t2. apply H12.
Qed.

(** In a run over a clock that never goes back, every record is stamped
    with readings of the run, the creation one first. *)
Lemma run_timestamps rs :
  clock_monotone rs →
  Forall (λ issue,
    stamped_from (rs ≫= clock_readings) issue
    ∧ created_at issue ≤ updated_at issue) (run rs).
Proof.
  intros Hrs.
  pose (P := λ (rs : list request) (issue : Issue),
    clock_monotone rs →
    stamped_from (rs ≫= clock_readings) issue
    ∧ created_at issue ≤ updated_at issue).
  assert (H : Forall (P rs) (run rs)).
  { apply run_invariant; unfold P, stamped_from.
    - intros rs0 r issue IH Hm.
      apply clock_monotone_snoc in Hm as (Hm & _).
      destruct (IH Hm) as [[Hc Hu] Hle].
      rewrite readings_snoc, !elem_of_app. auto.
    - intros rs0 uuid now1 now2 d db Hm.
      apply clock_monotone_snoc in Hm as (_ & Hs & _). simpl in *.
      rewrite readings_snoc, !elem_of_app. simpl.
      split; [split; right; set_solver|].
      apply StronglySorted_cons in Hs as [Hs _]. by apply Forall_inv in Hs.
    - intros rs0 issue_id u now issue IH Hm.
      apply clock_monotone_snoc in Hm as (Hm & _ & Hle).
      destruct (IH Hm) as [[Hc Hu] _].
      destruct (setattr_loop_fields issue u)
        as (_ & _ & _ & _ & _ & _ & Hcr & _).
      simpl. rewrite Hcr, readings_snoc, !elem_of_app. simpl.
      split; [split; [by left|right; set_solver]|].
      apply Hle; [done|set_solver]. }
  eapply Forall_impl; [exact H|]. intros issue HP. by apply HP.
Qed.

(** C7, as stated, fails: the two timestamps of a new issue come from two
    readings of the clock and can differ, and an update made when the clock
    reads less than at creation leaves [updated_at] before [created_at]. *)
Lemma clock_back_breaks_timestamp_order :
  Forall (λ r, valid_request r = true) clock_back_trace
  ∧ (∃ issue, issue ∈ run (take 1 clock_back_trace)
       ∧ created_at issue ≠ updated_at issue)
  ∧ (∃ issue, issue ∈ run clock_back_trace
       ∧ ¬ created_at issue ≤ updated_at issue).
Proof.
  split; [by repeat constructor|]. split.
  - eexists. split; [apply list_elem_of_here|]. simpl. lia.
  - eexists. split; [apply list_elem_of_here|]. simpl. lia.
Qed.

(** C7 (amended): over a clock whose successive readings never decrease,
    every issue of every reachable store has [created_at <= updated_at]:
    create takes [created_at] and then [updated_at] from the clock, and a
    successful update sets [updated_at] to the current reading, not earlier
    than the previous one, and leaves [created_at] as it was. *)
Theorem timestamps_ordered rs :
  clock_monotone rs →
  (∀ issue, issue ∈ run rs → created_at issue ≤ updated_at issue)
  ∧ (∀ uuid now1 now2 d,
       clock_monotone (rs ++ [Create uuid now1 now2 d]) →
       ∃ issue,
         run (rs ++ [Create uuid now1 now2 d]) = run rs ++ [issue]
         ∧ created_at issue = now1 ∧ updated_at issue = now2
         ∧ now1 ≤ now2)
  ∧ (∀ issue_id u now i issue,
       clock_monotone (rs ++ [Update issue_id u now]) →
       find_issue issue_id (run rs) = Some (i, issue) →
       ∃ issue',
         run (rs ++ [Update issue_id u now]) = <[i := issue']> (run rs)
         ∧ created_at issue' = created_at issue
         ∧ updated_at issue ≤ now
         ∧ updated_at issue' = now).
Proof.
  intros Hrs. pose proof (run_timestamps rs Hrs) as Hinv.
  rewrite Forall_forall in Hinv. split; [|split].
  - intros issue Hin. by apply Hinv.
  - intros uuid now1 now2 d Hm. rewrite run_snoc. simpl.
    eexists. split; [reflexivity|]. simpl. repeat (split; [done|]).
    apply clock_monotone_snoc in Hm as (_ & Hs & _). simpl in Hs.
    apply StronglySorted_cons in Hs as [Hs _]. by apply Forall_inv in Hs.
  - intros issue_id u now i issue Hm Hf. rewrite run_snoc. simpl.
    rewrite (update_issue_found _ _ _ _ _ _ Hf). simpl.
    eexists. split; [reflexivity|]. simpl.
    destruct (setattr_loop_fields issue u)
      as (_ & _ & _ & _ & _ & _ & Hcr & _).
    split; [done|]. split; [|done].
    apply clock_monotone_snoc in Hm as (_ & _ & Hle).
    apply find_issue_Some in Hf as [Hi _].
    apply list_elem_of_lookup_2 in Hi.
    destruct (Hinv issue Hi) as [[_ Hu] _].
    apply Hle; [done|]. simpl. set_solver.
Qed.

Lemma timestamps_ordered_witness :
  clock_monotone clock_on_trace
  ∧ ∀ issue, issue ∈ run clock_on_trace → created_at issue ≤ updated_at issue.
Proof.
  assert (H : clock_monotone clock_on_trace).
  { unfold clock_monotone. simpl. repeat constructor; done. }
  split; [exact H|]. exact (proj1 (timestamps_ordered clock_on_trace H)).
Defined.

(** ** Sorting *)

Section sort_facts.
Context {A K : Type} (leb : K → K → bool).
Implicit Types (x : K * A) (l : list (K * A)).

Lemma insort_Permutation x l : insort leb x l ≡ₚ x :: l.
Proof.
  induction l as [|y l IH]; simpl; [done|].
  destruct (leb x.1 y.1); [done|]. rewrite IH. apply Permutation_swap.
Qed.

Lemma stable_sort_Permutation l : stable_sort leb l ≡ₚ l.
Proof.
  induction l as [|x l IH]; simpl; [done|].
  by rewrite insort_Permutation, IH.
Qed.

Lemma sort_keyed_Permutation d l : sort_keyed leb d l ≡ₚ l.
Proof.
  unfold sort_keyed. destruct d; [|apply stable_sort_Permutation].
  by rewrite reverse_Permutation, stable_sort_Permutation,
    reverse_Permutation.
Qed.

Section sorted.
Hypothesis leb_total : ∀ a b, leb a b = true ∨ leb b a = true.

Lemma HdRel_insort y x l :
  keyed_le leb y x → HdRel (keyed_le leb) y l →
  HdRel (keyed_le leb) y (insort leb x l).
Proof.
  intros Hyx Hy. destruct l as [|z l]; simpl; [by constructor|].
  destruct (leb x.1 z.1); constructor; [done|].
  by apply HdRel_inv in Hy.
Qed.

Lemma Sorted_insort x l :
  Sorted (keyed_le leb) l → Sorted (keyed_le leb) (insort leb x l).
Proof.
  induction 1 as [|y l Hl IH Hy]; simpl.
  - by repeat constructor.
  - destruct (leb x.1 y.1) eqn:Hxy.
    + constructor; [by constructor|]. by constructor.
    + constructor; [done|]. apply HdRel_insort; [|done].
      unfold keyed_le. destruct (leb_total x.1 y.1); congruence.
Qed.

Lemma Sorted_stable_sort l : Sorted (keyed_le leb) (stable_sort leb l).
Proof.
  induction l as [|x l IH]; simpl; [constructor|]. by apply Sorted_insort.
Qed.

(** Ascending without [reverse], descending with it. *)
Lemma Sorted_sort_keyed (d : bool) l :
  Sorted (if d then flip (keyed_le leb) else keyed_le leb : relation (K * A))
    (sort_keyed leb d l).
Proof.
  unfold sort_keyed. destruct d.
  - apply Sorted_reverse, Sorted_stable_sort.
  - apply Sorted_stable_sort.
Qed.
End sorted.

Section stable.
Context `{!EqDecision K}.
Hypothesis leb_refl : ∀ a, leb a a = true.

(** Insertion passes only elements with another key. *)
Lemma filter_insort v x l :
  filter (λ p : K * A, p.1 = v) (insort leb x l) = filter (λ p : K * A, p.1 = v) (x :: l).
Proof.
  induction l as [|y l IH]; simpl; [done|].
  destruct (leb x.1 y.1) eqn:Hxy; [done|].
  rewrite (filter_cons _ y), IH, !filter_cons.
  destruct (decide (x.1 = v)) as [Hx|Hx], (decide (y.1 = v)) as [Hy|Hy];
    try done.
  rewrite Hx, Hy, leb_refl in Hxy. done.
Qed.

Lemma filter_stable_sort v l :
  filter (λ p : K * A, p.1 = v) (stable_sort leb l) = filter (λ p : K * A, p.1 = v) l.
Proof.
  induction l as [|x l IH]; simpl; [done|].
  by rewrite filter_insort, !filter_cons, IH.
Qed.

(** The elements of one key come out in the order they came in, in both
    directions of the sort. *)
Lemma filter_sort_keyed v d l :
  filter (λ p : K * A, p.1 = v) (sort_keyed leb d l) = filter (λ p : K * A, p.1 = v) l.
Proof.
  unfold sort_keyed. destruct d; [|apply filter_stable_sort].
  by rewrite filter_reverse, filter_stable_sort, filter_reverse,
    reverse_involutive.
Qed.
End stable.

(** *** From keyed elements back to the elements *)

Context (k : A → K).

Lemma undecorate (l : list A) : snd <$> decorate k l = l.
Proof.
  unfold decorate. rewrite <-list_fmap_compose. apply list_fmap_id.
Qed.

Lemma keyed_by_decorate (l : list A) : Forall (keyed_by k) (decorate k l).
Proof. unfold decorate. by apply Forall_fmap, Forall_true. Qed.

Lemma Sorted_undecorate (S : relation K) l :
  Forall (keyed_by k) l →
  Sorted (λ p q : K * A, S p.1 q.1) l →
  Sorted (λ a b, S (k a) (k b)) (snd <$> l).
Proof.
  intros Hk Hs. induction Hs as [|p l Hl IH Hp]; simpl; [constructor|].
  apply Forall_cons in Hk as [Hp' Hk]. constructor; [by apply IH|].
  destruct Hp as [|q l' Hpq]; simpl; constructor.
  apply Forall_cons in Hk as [Hq' _].
  unfold keyed_by in *. by rewrite <-Hp', <-Hq'.
Qed.

Lemma filter_undecorate `{!EqDecision K} v l :
  Forall (keyed_by k) l →
  filter (λ a, k a = v) (snd <$> l) = snd <$> filter (λ p : K * A, p.1 = v) l.
Proof.
  induction 1 as [|p l Hp _ IH]; [done|].
  rewrite fmap_cons, !filter_cons, IH. unfold keyed_by in Hp.
  rewrite <-Hp. by destruct (decide (p.1 = v)).
Qed.

(** With a key function that does not raise, [list_sort] sorts the
    decorated list. *)
Lemma list_sort_total key d (l : list A) :
  (∀ a, a ∈ l → key a = Ok (k a)) →
  list_sort leb key d l = Ok (snd <$> sort_keyed leb d (decorate k l)).
Proof.
  intros Hkey. unfold list_sort.
  assert (mapM (λ x : A, k' ← key x; Ok (k', x)) l = Ok (decorate k l))
    as ->; [|done].
  induction l as [|a l IH]; [done|].
  simpl. rewrite (Hkey a) by apply list_elem_of_here. simpl.
  rewrite IH; [done|]. intros b Hb. apply Hkey. by apply list_elem_of_further.
Qed.

(** Whether [list_sort] raises does not depend on the direction. *)
Lemma list_sort_raise key d d' (l : list A) e :
  list_sort leb key d l = Raise e → list_sort leb key d' l = Raise e.
Proof.
  unfold list_sort.
  by destruct (mapM (λ x : A, k' ← key x; Ok (k', x)) l).
Qed.

(** What [list_sort] returns on such a key: a stable rearrangement of the
    list, ordered on the key in the direction asked. *)
Lemma list_sort_spec `{!EqDecision K} key (d : bool) (l : list A) :
  (∀ a b, leb a b = true ∨ leb b a = true) →
  (∀ a, leb a a = true) →
  (∀ a, a ∈ l → key a = Ok (k a)) →
  ∃ out, list_sort leb key d l = Ok out
    ∧ out ≡ₚ l
    ∧ Sorted (λ a b, if d then leb (k b) (k a) = true
                     else leb (k a) (k b) = true) out
    ∧ ∀ v, filter (λ a, k a = v) out = filter (λ a, k a = v) l.
Proof.
  intros Htotal Hrefl Hkey. eexists. split; [by apply list_sort_total|].
  assert (Hk : Forall (keyed_by k) (sort_keyed leb d (decorate k l))).
  { rewrite sort_keyed_Permutation. apply keyed_by_decorate. }
  split; [|split].
  - by rewrite sort_keyed_Permutation, undecorate.
  - pose proof (Sorted_sort_keyed Htotal d (decorate k l)) as Hs.
    destruct d.
    + by apply (Sorted_undecorate (λ a b, leb b a = true)).
    + by apply (Sorted_undecorate (λ a b, leb a b = true)).
  - intros v. rewrite filter_undecorate by done.
    rewrite filter_sort_keyed by done.
    rewrite <-filter_undecorate by apply keyed_by_decorate.
    by rewrite undecorate.
Qed.
End sort_facts.

(** *** The sort of get_issues *)

Lemma Sorted_weaken {A} (P : A → Prop) (R R' : relation A) l :
  Forall P l → (∀ a b, P a → P b → R a b → R' a b) →
  Sorted R l → Sorted R' l.
Proof.
  intros HP Himp Hs. induction Hs as [|a l Hl IH Ha]; [constructor|].
  apply Forall_cons in HP as [Pa HP]. constructor; [by apply IH|].
  destruct Ha as [|b l' Hab]; constructor.
  apply Forall_cons in HP as [Pb _]. by apply Himp.
Qed.

Lemma status_key_rank x : status_key x = status_rank_of x.
Proof.
  unfold status_key, status_rank_of. by destruct (status x) as [[]|].
Qed.

Lemma priority_key_rank x : priority_key x = priority_rank_of x.
Proof.
  unfold priority_key, priority_rank_of. by destruct (priority x) as [[]|].
Qed.

Lemma Zleb_total a b : (a <=? b) = true ∨ (b <=? a) = true.
Proof. rewrite !Z.leb_le. lia. Qed.

(** A sort on an integer key that does not raise. *)
Lemma list_sort_Z (rank : Issue → Z) key (so : option string) l :
  (∀ x, key x = Ok (rank x)) →
  ∃ out,
    list_sort Z.leb key (bool_decide (so = Some "desc")) l = Ok out
    ∧ sorted_stably rank so l out.
Proof.
  intros Hkey.
  destruct (list_sort_spec Z.leb rank key
              (bool_decide (so = Some "desc")) l Zleb_total Z.leb_refl)
    as (out & Hout & Hperm & Hsorted & Hstable); [done|].
  exists out. split; [done|]. split; [done|]. split; [|split; [|done]].
  - intros ->. simpl in Hsorted.
    apply Sorted_StronglySorted; [intros a b c; lia|].
    eapply (Sorted_weaken (λ _, True)); [by apply Forall_true| |done].
    intros a b _ _. apply Z.leb_le.
  - intros ->. simpl in Hsorted.
    apply Sorted_StronglySorted; [intros a b c; lia|].
    eapply (Sorted_weaken (λ _, True)); [by apply Forall_true| |done].
    intros a b _ _. apply Z.leb_le.
Qed.

(** The branch of the sort that each known [sort_by] selects. *)
Lemma apply_sorting_title `{!StrLower} so l :
  apply_sorting (Some "title") so l =
  list_sort String.leb title_lower (bool_decide (so = Some "desc")) l.
Proof. reflexivity. Qed.

Lemma apply_sorting_status `{!StrLower} so l :
  apply_sorting (Some "status") so l =
  list_sort Z.leb (λ x, Ok (status_key x)) (bool_decide (so = Some "desc")) l.
Proof. reflexivity. Qed.

Lemma apply_sorting_priority `{!StrLower} so l :
  apply_sorting (Some "priority") so l =
  list_sort Z.leb (λ x, Ok (priority_key x))
    (bool_decide (so = Some "desc")) l.
Proof. reflexivity. Qed.

Lemma apply_sorting_assignee `{!StrLower} so l :
  apply_sorting (Some "assignee") so l =
  list_sort String.leb (λ x, Ok (or_empty (assignee x)))
    (bool_decide (so = Some "desc")) l.
Proof. reflexivity. Qed.

Lemma apply_sorting_created_at `{!StrLower} so l :
  apply_sorting (Some "created_at") so l =
  list_sort Z.leb (λ x, Ok (created_at x)) (bool_decide (so = Some "desc")) l.
Proof. reflexivity. Qed.

(** Every other [sort_by], absent or unknown, sorts on [updated_at]. *)
Lemma apply_sorting_default `{!StrLower} sb so l :
  sb ≠ Some "title" → sb ≠ Some "status" → sb ≠ Some "priority" →
  sb ≠ Some "assignee" → sb ≠ Some "created_at" →
  apply_sorting sb so l =
  list_sort Z.leb (λ x, Ok (updated_at x)) (bool_decide (so = Some "desc")) l.
Proof.
  intros. unfold apply_sorting. by rewrite !decide_False by done.
Qed.

(** C2: in a list query with [sort_by] "priority" the sort returns the
    searched and filtered records ordered on the rank low=1 < medium=2 <
    high=3 < critical=4, and with "status" on the rank open=1 <
    in-progress=2 < closed=3; ascending for "asc", descending for "desc";
    records of equal rank keep the relative order they have in the
    collection. *)
Theorem rank_sort_stable `{!StrLower} q db l :
  search_and_filter q db = Ok l →
  sublist l db
  ∧ (Query.sort_by q = Some "priority" →
     ∃ out, filtered_sorted q db = Ok out
       ∧ sorted_stably priority_rank_of (Query.sort_order q) l out)
  ∧ (Query.sort_by q = Some "status" →
     ∃ out, filtered_sorted q db = Ok out
       ∧ sorted_stably status_rank_of (Query.sort_order q) l out)
  ∧ priority_rank <$> [low; medium; high; critical] = [1; 2; 3; 4]
  ∧ status_rank <$> [open; in_progress; closed] = [1; 2; 3].
Proof.
  intros Hl. split; [by eapply search_and_filter_sublist|].
  unfold filtered_sorted. rewrite Hl. simpl.
  split; [|split; [|done]]; intros ->.
  - rewrite apply_sorting_priority. apply list_sort_Z.
    intros x. by rewrite priority_key_rank.
  - rewrite apply_sorting_status. apply list_sort_Z.
    intros x. by rewrite status_key_rank.
Qed.

Lemma rank_sort_stable_witness :
  search_and_filter priority_desc_query priority_mix = Ok priority_mix
  ∧ ∃ out, filtered_sorted priority_desc_query priority_mix = Ok out
    ∧ StronglySorted (λ a b, priority_rank_of b ≤ priority_rank_of a) out
    ∧ fmap (M := list) id (filter (λ a, priority_rank_of a = 3) out)
      = ["1"; "4"].
Proof.
  assert (Hl : search_and_filter priority_desc_query priority_mix
               = Ok priority_mix) by reflexivity.
  split; [exact Hl|].
  destruct (rank_sort_stable priority_desc_query priority_mix priority_mix Hl)
    as (_ & Hp & _).
  destruct (Hp eq_refl) as (out & Ho & _ & _ & Hd & Hst).
  exists out. split; [exact Ho|]. split; [by apply Hd|].
  by rewrite Hst.
Defined.

(** The ranks, not the alphabet, order the priorities; the two records of
    priority high stay in insertion order in both directions. *)
Example priority_mix_asc :
  fmap (M := result) (fmap (M := list) id)
    (apply_sorting (Some "priority") (Some "asc") priority_mix)
  = Ok ["3"; "5"; "1"; "4"; "2"].
Proof. reflexivity. Qed.

Example priority_mix_desc :
  fmap (M := result) (fmap (M := list) id)
    (apply_sorting (Some "priority") (Some "desc") priority_mix)
  = Ok ["2"; "1"; "4"; "5"; "3"].
Proof. reflexivity. Qed.

(** *** The direction of the sort *)

Lemma String_leb_refl s : String.leb s s = true.
Proof. by destruct (String.leb_total s s). Qed.

(** When [list_sort] returns, the key of every element was computed. *)
Lemma list_sort_Ok_keys {A K} (leb : K → K → bool) (key : A → result K)
    d l out :
  list_sort leb key d l = Ok out → ∀ a, a ∈ l → ∃ v, key a = Ok v.
Proof.
  unfold list_sort. intros H.
  assert (∃ keyed, mapM (λ x : A, k' ← key x; Ok (k', x)) l = Ok keyed)
    as [keyed Hk].
  { destruct (mapM _ l); [eauto|done]. }
  clear H. revert keyed Hk.
  induction l as [|b l IH]; intros keyed Hk a Ha.
  - by apply elem_of_nil in Ha.
  - simpl in Hk. destruct (key b) as [v|] eqn:Hb; [|done]. simpl in Hk.
    destruct (mapM _ l) as [keyed'|] eqn:Hl; [|done].
    apply elem_of_cons in Ha as [->|Ha]; [eauto|]. by eapply IH.
Qed.

(** A sort that returns gives a rearrangement of the list, ordered on the
    key: descending with [reverse], ascending without. *)
Lemma list_sort_Sorted `{!EqDecision K} (leb : K → K → bool)
    (k : Issue → K) key (d : bool) l out :
  (∀ a b, leb a b = true ∨ leb b a = true) →
  (∀ a, a ∈ l → key a = Ok (k a)) →
  list_sort leb key d l = Ok out →
  out ≡ₚ l
  ∧ Sorted (if d then flip (λ a b, leb (k a) (k b) = true)
            else (λ a b, leb (k a) (k b) = true) : relation Issue) out.
Proof.
  intros Htotal Hkey Hout.
  destruct (list_sort_spec leb k key d l Htotal)
    as (out' & Hout' & Hperm & Hsorted & _); [|done|].
  { intros a. by destruct (Htotal a a). }
  rewrite Hout in Hout'. injection Hout' as <-.
  split; [done|]. by destruct d.
Qed.

Lemma key_le_title `{!StrLower} a b :
  key_le (Some "title") a b ↔
  ∃ s t, title a = Some s ∧ title b = Some t
         ∧ String.leb (lower s) (lower t) = true.
Proof. reflexivity. Qed.

Lemma key_le_default `{!StrLower} sb a b :
  sb ≠ Some "title" → sb ≠ Some "status" → sb ≠ Some "priority" →
  sb ≠ Some "assignee" → sb ≠ Some "created_at" →
  key_le sb a b ↔ updated_at a ≤ updated_at b.
Proof. intros. unfold key_le. by rewrite !decide_False by done. Qed.

Lemma or_empty_default (o : option string) : or_empty o = default "" o.
Proof. by destruct o as [[|c s]|]. Qed.

(** The sort of [get_issues], when it returns, gives a rearrangement of the
    list, ordered on the key of [sort_by]: descending for "desc", ascending
    for anything else. *)
Lemma apply_sorting_Sorted `{!StrLower} sb so l out :
  apply_sorting sb so l = Ok out →
  out ≡ₚ l
  ∧ Sorted (if bool_decide (so = Some "desc") then flip (key_le sb)
            else key_le sb) out.
Proof.
  set (d := bool_decide (so = Some "desc")).
  assert (HZ : ∀ k k' : Issue → Z, (∀ x, k x = k' x) →
    list_sort Z.leb (λ x, Ok (k x)) d l = Ok out →
    out ≡ₚ l ∧ Sorted (if d then flip (λ a b, k' a ≤ k' b)
                       else (λ a b, k' a ≤ k' b) : relation Issue) out).
  { intros k k' Hkk Hk.
    destruct (list_sort_Sorted Z.leb k (λ x, Ok (k x)) d l out Zleb_total)
      as [Hp Hs]; [done|done|].
    split; [done|].
    destruct d; (eapply (Sorted_weaken (λ _, True));
      [by apply Forall_true| |exact Hs]); intros a b _ _; unfold flip;
      rewrite <-!Hkk; apply Z.leb_le. }
  destruct (decide (sb = Some "title")) as [->|?].
  { rewrite apply_sorting_title. fold d. intros Hout.
    assert (Ht : ∀ a, a ∈ l → has_title a).
    { intros a Ha.
      destruct (list_sort_Ok_keys _ _ _ _ _ Hout a Ha) as [v Hv].
      unfold has_title. unfold title_lower in Hv.
      destruct (title a); [by eexists|done]. }
    destruct (list_sort_Sorted String.leb title_key title_lower d l out
                String.leb_total) as [Hp Hs]; [|done|].
    { intros a Ha. destruct (Ht a Ha) as [t Hta].
      unfold title_lower, title_key. by rewrite Hta. }
    split; [done|].
    assert (Hto : Forall has_title out).
    { apply Forall_forall. intros a Ha. apply Ht. by rewrite <-Hp. }
    destruct d; (eapply Sorted_weaken; [exact Hto| |exact Hs]);
      intros a b [s Hs'] [t Ht']; unfold flip; rewrite key_le_title;
      unfold title_key; rewrite Hs', Ht'; simpl; eauto. }
  destruct (decide (sb = Some "status")) as [->|?].
  { rewrite apply_sorting_status. apply (HZ _ _ status_key_rank). }
  destruct (decide (sb = Some "priority")) as [->|?].
  { rewrite apply_sorting_priority. apply (HZ _ _ priority_key_rank). }
  destruct (decide (sb = Some "assignee")) as [->|?].
  { rewrite apply_sorting_assignee. fold d. intros Hout.
    destruct (list_sort_Sorted String.leb (λ x, or_empty (assignee x))
                (λ x, Ok (or_empty (assignee x))) d l out
                String.leb_total) as [Hp Hs]; [done|done|].
    split; [done|].
    destruct d; (eapply (Sorted_weaken (λ _, True));
      [by apply Forall_true| |exact Hs]); intros a b _ _; unfold flip;
      by rewrite !or_empty_default. }
  destruct (decide (sb = Some "created_at")) as [->|?].
  { rewrite apply_sorting_created_at. by apply HZ. }
  rewrite apply_sorting_default by done. fold d. intros Hout.
  destruct (HZ updated_at updated_at (λ _, eq_refl) Hout) as [Hp Hs].
  split; [done|].
  destruct d; (eapply (Sorted_weaken (λ _, True));
    [by apply Forall_true| |exact Hs]); intros a b _ _; unfold flip;
    by rewrite key_le_default.
Qed.

Lemma reverse_flag_other o :
  o ≠ Some "desc" → bool_decide (o = Some "desc") = false.
Proof. intros. by apply bool_decide_eq_false. Qed.

Lemma apply_sorting_not_desc `{!StrLower} sb o l :
  o ≠ Some "desc" → apply_sorting sb o l = apply_sorting sb (Some "asc") l.
Proof.
  intros Ho. unfold apply_sorting. by rewrite (reverse_flag_other o Ho).
Qed.

(** Whether the sort raises does not depend on [sort_order]. *)
Lemma apply_sorting_raise `{!StrLower} sb o o' l e :
  apply_sorting sb o l = Raise e → apply_sorting sb o' l = Raise e.
Proof.
  unfold apply_sorting. repeat case_decide; apply list_sort_raise.
Qed.

(** The sort returns whenever the records have a title, which only a sort
    on the title needs. *)
Lemma apply_sorting_returns `{!StrLower} sb so l :
  (sb = Some "title" → Forall has_title l) →
  ∃ out, apply_sorting sb so l = Ok out.
Proof.
  intros Hl.
  destruct (decide (sb = Some "title")) as [->|?].
  { rewrite apply_sorting_title. eexists.
    apply (list_sort_total _ title_key). intros a Ha.
    specialize (Hl eq_refl). rewrite Forall_forall in Hl.
    destruct (Hl a Ha) as [t Ht].
    unfold title_lower, title_key. by rewrite Ht. }
  destruct (decide (sb = Some "status")) as [->|?].
  { rewrite apply_sorting_status. eexists.
    by apply (list_sort_total _ status_key). }
  destruct (decide (sb = Some "priority")) as [->|?].
  { rewrite apply_sorting_priority. eexists.
    by apply (list_sort_total _ priority_key). }
  destruct (decide (sb = Some "assignee")) as [->|?].
  { rewrite apply_sorting_assignee. eexists.
    by apply (list_sort_total _ (λ x, or_empty (assignee x))). }
  destruct (decide (sb = Some "created_at")) as [->|?].
  { rewrite apply_sorting_created_at. eexists.
    by apply (list_sort_total _ created_at). }
  rewrite apply_sorting_default by done. eexists.
  by apply (list_sort_total _ updated_at).
Qed.

(** C10: a [sort_order] other than "desc" gives what "asc" gives: the
    searched and filtered records, all of them and no other, in ascending
    order of the sort key; "desc", the default, gives them in descending
    order. No value of [sort_order] makes the query fail: the sort returns
    whenever the records to sort have a title, which a sort on the title
    alone needs, and a query that fails with one [sort_order] fails in the
    same way with every other. *)
Theorem sort_order_not_desc_is_ascending `{!StrLower} q db o :
  o ≠ Some "desc" →
  let q_o := Query.with_sort_order q o in
  let q_asc := Query.with_sort_order q (Some "asc") in
  let q_desc := Query.with_sort_order q (Some "desc") in
  filtered_sorted q_o db = filtered_sorted q_asc db
  ∧ issues <$> get_issues q_o db = issues <$> get_issues q_asc db
  ∧ (∀ out, filtered_sorted q_o db = Ok out →
       ∃ l, search_and_filter q db = Ok l ∧ out ≡ₚ l
            ∧ Sorted (key_le (Query.sort_by q)) out)
  ∧ (∀ out, filtered_sorted q_desc db = Ok out →
       ∃ l, search_and_filter q db = Ok l ∧ out ≡ₚ l
            ∧ Sorted (flip (key_le (Query.sort_by q))) out)
  ∧ (∀ l, search_and_filter q db = Ok l →
       (Query.sort_by q = Some "title" → Forall has_title l) →
       (∃ out, filtered_sorted q_o db = Ok out)
       ∧ (∃ out, filtered_sorted q_desc db = Ok out))
  ∧ (∀ e, filtered_sorted q_o db = Raise e ↔
          filtered_sorted q_desc db = Raise e)
  ∧ Query.sort_order Query.default = Some "desc".
Proof.
  intros Ho q_o q_asc q_desc.
  assert (Hsf : ∀ o', filtered_sorted (Query.with_sort_order q o') db
                = l ← search_and_filter q db;
                  apply_sorting (Query.sort_by q) o' l) by done.
  unfold q_o, q_asc, q_desc.
  split; [|split; [|split; [|split; [|split; [|split; [|done]]]]]].
  - rewrite !Hsf. destruct (search_and_filter q db) as [l|]; [|done].
    simpl. by apply apply_sorting_not_desc.
  - unfold get_issues. rewrite !Hsf.
    destruct (search_and_filter q db) as [l|]; [|done]. simpl.
    rewrite (apply_sorting_not_desc _ o l Ho).
    destruct (apply_sorting _ _ l); [|done]. simpl.
    by destruct (floordiv _ _).
  - intros out. rewrite Hsf.
    destruct (search_and_filter q db) as [l|]; [|done]. simpl.
    intros [Hp Hs]%apply_sorting_Sorted. exists l.
    by rewrite (reverse_flag_other o Ho) in Hs.
  - intros out. rewrite Hsf.
    destruct (search_and_filter q db) as [l|]; [|done]. simpl.
    intros [Hp Hs]%apply_sorting_Sorted. by exists l.
  - intros l Hl Ht. rewrite !Hsf, Hl. simpl.
    split; by apply apply_sorting_returns.
  - intros e. rewrite !Hsf.
    destruct (search_and_filter q db) as [l|]; [|done]. simpl.
    split; apply apply_sorting_raise.
Qed.

Lemma sort_order_not_desc_is_ascending_witness :
  Some "ASC" ≠ Some "desc"
  ∧ fmap (M := result) (fmap (M := list) id)
      (filtered_sorted upper_asc_query sample_db) = Ok ["B"; "A"; "C"]
  ∧ filtered_sorted upper_asc_query sample_db =
    filtered_sorted (Query.with_sort_order upper_asc_query (Some "asc"))
      sample_db.
Proof.
  assert (H : Some "ASC" ≠ Some "desc") by discriminate.
  split; [exact H|]. split; [reflexivity|].
  exact (proj1 (sort_order_not_desc_is_ascending upper_asc_query sample_db
                  (Some "ASC") H)).
Defined.

(** ** Pagination *)

(** The slice of a page, for a valid page number and page size. *)
Lemma slice_page {A} (l : list A) (page page_size : Z) :
  1 ≤ page → 1 ≤ page_size →
  slice l ((page - 1) * page_size) ((page - 1) * page_size + page_size) =
  take (Z.to_nat page_size) (drop (Z.to_nat ((page - 1) * page_size)) l).
Proof.
  intros Hp Hps. unfold slice, slice_bound.
  set (start := (page - 1) * page_size).
  assert (0 ≤ start) by (unfold start; nia).
  destruct (Z.ltb_spec start 0); [lia|].
  destruct (Z.ltb_spec (start + page_size) 0); [lia|].
  destruct (decide (Z.of_nat (length l) ≤ start)) as [Hge|Hlt].
  - rewrite (drop_ge l (Z.to_nat start)) by lia.
    rewrite drop_ge by lia. by rewrite !take_nil.
  - replace (Z.to_nat (Z.min start (Z.of_nat (length l))))
      with (Z.to_nat start) by lia.
    destruct (decide (start + page_size ≤ Z.of_nat (length l))).
    + f_equal. lia.
    + rewrite !take_ge; [done| |]; rewrite length_drop; lia.
Qed.

Lemma ceil_div_spec a b : 1 ≤ b → is_ceil_div a b ((a + b - 1) / b).
Proof.
  intros Hb. unfold is_ceil_div.
  pose proof (Z.div_mod (a + b - 1) b ltac:(lia)) as Hdm.
  pose proof (Z.mod_pos_bound (a + b - 1) b ltac:(lia)) as Hm.
  nia.
Qed.

(** The response of [get_issues] once the list to paginate is known. *)
Lemma get_issues_page `{!StrLower} q db l :
  Query.valid q → filtered_sorted q db = Ok l →
  get_issues q db =
  Ok {| issues :=
          take (Z.to_nat (Query.page_size q))
            (drop (Z.to_nat ((Query.page q - 1) * Query.page_size q)) l);
        pagination :=
          {| page := Query.page q;
             pageSize := Query.page_size q;
             totalCount := Z.of_nat (length l);
             totalPages :=
               (Z.of_nat (length l) + Query.page_size q - 1)
               / Query.page_size q |};
        filters_applied :=
          {| fa_search := Query.search q;
             fa_status := Query.status q;
             fa_priority := Query.priority q;
             fa_assignee := Query.assignee q |};
        sorting :=
          {| sort_by := Query.sort_by q;
             sort_order := Query.sort_order q |} |}.
Proof.
  intros (Hp & Hps & _) Hl. unfold get_issues. rewrite Hl. simpl.
  unfold floordiv. destruct (Z.eqb_spec (Query.page_size q) 0); [lia|].
  simpl. by rewrite slice_page.
Qed.

(** C3: for a valid page and page size, [get_issues] returns the elements
    of the filtered and sorted list at the positions from
    [(page-1)*page_size] up to, not including, [page*page_size]; a page past
    the end is empty; [totalCount] is the length of that list and
    [totalPages] the ceiling of [totalCount / page_size]. *)
Theorem page_is_slice `{!StrLower} q db l :
  Query.valid q → filtered_sorted q db = Ok l →
  ∃ resp, get_issues q db = Ok resp
    ∧ (let size := Z.to_nat (Query.page_size q) in
       let start := Z.to_nat ((Query.page q - 1) * Query.page_size q) in
       issues resp = take size (drop start l)
       ∧ (∀ k : nat,
            issues resp !! k =
            if decide (k < size)%nat then l !! (start + k)%nat else None)
       ∧ ((length l ≤ start)%nat → issues resp = []))
    ∧ totalCount (pagination resp) = Z.of_nat (length l)
    ∧ is_ceil_div (totalCount (pagination resp)) (Query.page_size q)
        (totalPages (pagination resp)).
Proof.
  intros Hq Hl. eexists. split; [by apply get_issues_page|]. simpl.
  split; [|split; [done|]].
  - split; [done|]. split.
    + intros k. case_decide.
      * by rewrite lookup_take_lt, lookup_drop by done.
      * apply lookup_take_ge. lia.
    + intros Hge. by rewrite drop_ge, take_nil.
  - apply ceil_div_spec. apply Hq.
Qed.

Lemma page_is_slice_witness :
  Query.valid second_page_query
  ∧ filtered_sorted second_page_query sample_db = Ok sample_db
  ∧ ∃ resp, get_issues second_page_query sample_db = Ok resp
      ∧ issues resp = [issue_C]
      ∧ totalPages (pagination resp) = 2.
Proof.
  assert (Hq : Query.valid second_page_query).
  { unfold Query.valid. simpl. lia. }
  assert (Hl : filtered_sorted second_page_query sample_db = Ok sample_db)
    by reflexivity.
  split; [exact Hq|]. split; [exact Hl|].
  destruct (page_is_slice second_page_query sample_db sample_db Hq Hl)
    as (resp & Hr & (Hi & _) & Hc & Hceil).
  exists resp. split; [exact Hr|]. split; [exact Hi|].
  unfold is_ceil_div in Hceil. rewrite Hc in Hceil. simpl in Hceil. lia.
Defined.

(** Cutting a list into [n] chunks of [size] and joining them gives its
    first [n * size] elements. *)
Lemma concat_chunks {A} (l : list A) (size n : nat) :
  concat ((λ k, take size (drop (k * size) l)) <$> seq 0 n)
  = take (n * size) l.
Proof.
  induction n as [|n IH]; [done|].
  rewrite seq_S, fmap_app, concat_app, IH. simpl.
  rewrite app_nil_r, take_take_drop. f_equal. lia.
Qed.

Lemma mapM_total {A B} (f : A → result B) (g : A → B) (l : list A) :
  (∀ x, x ∈ l → f x = Ok (g x)) → mapM f l = Ok (g <$> l).
Proof.
  induction l as [|x l IH]; intros Hf; [done|].
  simpl. rewrite (Hf x) by apply list_elem_of_here. simpl.
  rewrite IH; [done|]. intros y Hy. apply Hf. by apply list_elem_of_further.
Qed.

(** The page number does not enter the search, the filters or the sort. *)
Lemma filtered_sorted_with_page `{!StrLower} q p db :
  filtered_sorted (Query.with_page q p) db = filtered_sorted q db.
Proof. reflexivity. Qed.

(** The pages [1 .. n] are the successive chunks of the list. *)
Lemma pages_chunks `{!StrLower} q db l (n : nat) :
  1 ≤ Query.page_size q ≤ 100 → filtered_sorted q db = Ok l →
  pages q db (Z.of_nat n) =
  Ok ((λ k, take (Z.to_nat (Query.page_size q))
              (drop (k * Z.to_nat (Query.page_size q)) l)) <$> seq 0 n).
Proof.
  intros Hps Hl. unfold pages. rewrite Nat2Z.id.
  set (chunk := λ p : Z,
    take (Z.to_nat (Query.page_size q))
      (drop (Z.to_nat ((p - 1) * Query.page_size q)) l)).
  trans (Ok (chunk <$> (Z.of_nat <$> seq 1 n)) : result (list (list Issue))).
  - apply mapM_total. intros p Hp.
    apply list_elem_of_fmap in Hp as (k & -> & Hk).
    apply elem_of_seq in Hk.
    rewrite (get_issues_page _ db l); [done| |done].
    split; simpl; lia.
  - f_equal. replace (seq 1 n) with (S <$> seq 0 n) by apply fmap_S_seq.
    rewrite <-!list_fmap_compose. apply list_fmap_ext. intros _ k _.
    unfold chunk, compose. do 2 f_equal.
    rewrite Z2Nat.inj_mul by lia. f_equal. lia.
Qed.

(** C9: for a fixed query and page size, the pages 1 to [totalPages], one
    after the other, are the filtered and sorted list: every record once, in
    order. *)
Theorem pagination_completeness `{!StrLower} q db l :
  Query.valid q → filtered_sorted q db = Ok l →
  ∃ resp chunks,
    get_issues q db = Ok resp
    ∧ pages q db (totalPages (pagination resp)) = Ok chunks
    ∧ concat chunks = l.
Proof.
  intros Hq Hl. eexists _, _. split; [by apply get_issues_page|]. simpl.
  destruct Hq as (_ & Hps).
  pose proof (ceil_div_spec (Z.of_nat (length l)) (Query.page_size q)
                ltac:(lia)) as [Hlo Hhi].
  set (n := (Z.of_nat (length l) + Query.page_size q - 1)
            / Query.page_size q) in *.
  assert (0 ≤ n) by nia.
  rewrite <-(Z2Nat.id n) by done. split; [by apply pages_chunks|].
  rewrite concat_chunks. apply take_ge. nia.
Qed.

Lemma pagination_completeness_witness :
  Query.valid second_page_query
  ∧ filtered_sorted second_page_query sample_db = Ok sample_db
  ∧ ∃ chunks, pages second_page_query sample_db 2 = Ok chunks
      ∧ concat chunks = sample_db.
Proof.
  assert (Hq : Query.valid second_page_query).
  { unfold Query.valid. simpl. lia. }
  assert (Hl : filtered_sorted second_page_query sample_db = Ok sample_db)
    by reflexivity.
  split; [exact Hq|]. split; [exact Hl|].
  destruct (pagination_completeness second_page_query sample_db sample_db
              Hq Hl) as (resp & chunks & Hr & Hp & Hc).
  exists chunks. split; [|exact Hc].
  injection Hr as <-. exact Hp.
Defined.

(** ** The query on a store whose records have a title *)

Lemma apply_sorting_total `{!StrLower} sb so l :
  Forall has_title l → ∃ out, apply_sorting sb so l = Ok out.
Proof.
  intros Hl.
  destruct (decide (sb = Some "title")) as [->|?].
  { rewrite apply_sorting_title. eexists.
    apply (list_sort_total _ title_key). intros a Ha.
    rewrite Forall_forall in Hl. destruct (Hl a Ha) as [t Ht].
    unfold title_lower, title_key. by rewrite Ht. }
  destruct (decide (sb = Some "status")) as [->|?].
  { rewrite apply_sorting_status. eexists.
    by apply (list_sort_total _ status_key). }
  destruct (decide (sb = Some "priority")) as [->|?].
  { rewrite apply_sorting_priority. eexists.
    by apply (list_sort_total _ priority_key). }
  destruct (decide (sb = Some "assignee")) as [->|?].
  { rewrite apply_sorting_assignee. eexists.
    by apply (list_sort_total _ (λ x, or_empty (assignee x))). }
  destruct (decide (sb = Some "created_at")) as [->|?].
  { rewrite apply_sorting_created_at. eexists.
    by apply (list_sort_total _ created_at). }
  rewrite apply_sorting_default by done. eexists.
  by apply (list_sort_total _ updated_at).
Qed.

(** No step of the query raises on such a store. *)
Lemma get_issues_total `{!StrLower} q db :
  Query.valid q → Forall has_title db →
  ∃ l resp, filtered_sorted q db = Ok l ∧ get_issues q db = Ok resp.
Proof.
  intros Hq Hdb.
  destruct (apply_search_titled (Query.search q) db Hdb)
    as (l0 & Hl0 & _ & Hin0).
  destruct (apply_filters_spec q l0) as [_ Hin1].
  set (out := apply_filters q l0).
  assert (Hout : search_and_filter q db = Ok out).
  { unfold search_and_filter. by rewrite Hl0. }
  assert (Ht : Forall has_title out).
  { rewrite Forall_forall in *. intros r Hr.
    by apply Hdb, Hin0, Hin1. }
  destruct (apply_sorting_total (Query.sort_by q) (Query.sort_order q)
              out Ht) as [l Hl].
  assert (Hfs : filtered_sorted q db = Ok l).
  { unfold filtered_sorted. by rewrite Hout. }
  exists l. eexists. split; [done|]. by apply get_issues_page.
Qed.

(** A record without a title makes a search raise, and a sort on the
    title as well. *)
Lemma untitled_record_raises `{!StrLower} r :
  title r = None →
  apply_search (Some "x") [r] = Raise AttributeError
  ∧ ∀ so, apply_sorting (Some "title") so [r] = Raise AttributeError.
Proof.
  intros Hr. split.
  - unfold apply_search. simpl. by rewrite search_matches_untitled.
  - intros so. rewrite apply_sorting_title. unfold list_sort. simpl.
    unfold title_lower. by rewrite Hr.
Qed.

(** * Further properties of the store *)

(** ** get_issue *)

Lemma get_issue_Ok issue_id db issue :
  get_issue issue_id db = Ok issue ↔ ∃ i, find_issue issue_id db = Some (i, issue).
Proof.
  unfold get_issue. destruct (find_issue issue_id db) as [[i x]|].
  - split; [intros [= ->]; eauto|]. by intros (? & [= _ ->]).
  - split; [done|]. by intros (? & ?).
Qed.

(** X1: a lookup by id returns a stored record of that id, the first one,
    whenever the store has one; otherwise, and only then, it fails with the
    404 whose body names the id. *)
Theorem get_issue_found_or_404 issue_id db :
  (∀ issue, get_issue issue_id db = Ok issue →
     ∃ i, db !! i = Some issue ∧ id issue = issue_id
          ∧ ∀ j other, db !! j = Some other → (j < i)%nat →
              id other ≠ issue_id)
  ∧ ((∃ issue, issue ∈ db ∧ id issue = issue_id) ↔
     ∃ issue, get_issue issue_id db = Ok issue)
  ∧ ((∀ issue, issue ∈ db → id issue ≠ issue_id) ↔
     get_issue issue_id db =
       Raise (HTTPException 404
         {| error := "Issue not found";
            message := "No issue exists with ID: " +:+ issue_id;
            suggestion :=
              "Check the issue ID or use GET /issues to see all available issues"
         |})).
Proof.
  split; [|split].
  - intros issue (i & Hf)%get_issue_Ok. exists i.
    by apply list_find_Some in Hf.
  - split.
    + intros (issue & Hin & Hid).
      destruct (list_find_elem_of (λ x, id x = issue_id) db issue Hin Hid)
        as [[i x] Hf].
      exists x. apply get_issue_Ok. by exists i.
    + intros (issue & (i & Hf)%get_issue_Ok).
      apply find_issue_Some in Hf as [Hi Hid].
      exists issue. split; [by eapply list_elem_of_lookup_2|done].
  - rewrite <-find_issue_None. unfold get_issue.
    destruct (find_issue issue_id db) as [[i x]|]; split; done.
Qed.

(** The first match is where it was after the record there is replaced by
    one that matches too. *)
Lemma list_find_insert_same {A} (P : A → Prop) `{!∀ x, Decision (P x)}
    (l : list A) i x y :
  list_find P l = Some (i, x) → P y →
  list_find P (<[i := y]> l) = Some (i, y).
Proof.
  intros (Hi & _ & Hlt)%list_find_Some Hy. apply list_find_Some.
  split; [|split; [done|]].
  - apply list_lookup_insert_eq. by eapply lookup_lt_Some.
  - intros j z Hj Hji. rewrite list_lookup_insert_ne in Hj by lia.
    by eapply Hlt.
Qed.

(** Replacing a record that does not match by another that does not
    leaves the search as it was. *)
Lemma list_find_insert_other {A} (P : A → Prop) `{!∀ x, Decision (P x)}
    (l : list A) i x y :
  l !! i = Some x → ¬ P x → ¬ P y →
  list_find P (<[i := y]> l) = list_find P l.
Proof.
  revert i. induction l as [|z l IH]; intros i Hi Hx Hy; [done|].
  destruct i as [|i]; simpl in *.
  - injection Hi as ->. by rewrite !decide_False by done.
  - case_decide; [done|]. by rewrite (IH i).
Qed.

(** X2: a record created under an id that no stored record has is what a
    lookup of that id returns next; it carries the data of the request, the
    id and the two clock readings. *)
Theorem create_then_get uuid now1 now2 d db :
  (∀ issue, issue ∈ db → id issue ≠ uuid) →
  let new_issue := (create_issue uuid now1 now2 d db).1 in
  get_issue uuid (create_issue uuid now1 now2 d db).2 = Ok new_issue
  ∧ title new_issue = Some (new_title d)
  ∧ description new_issue = new_description d
  ∧ status new_issue = Some (new_status d)
  ∧ priority new_issue = Some (new_priority d)
  ∧ assignee new_issue = new_assignee d
  ∧ id new_issue = uuid
  ∧ created_at new_issue = now1
  ∧ updated_at new_issue = now2.
Proof.
  intros Hfresh. simpl. split; [|done].
  apply get_issue_Ok. exists (length db). unfold find_issue.
  apply list_find_app_Some. right. split; [done|].
  split; [by apply find_issue_None|].
  rewrite Nat.sub_diag. simpl. by rewrite decide_True.
Qed.

Lemma create_then_get_witness :
  (∀ issue, issue ∈ sample_db → id issue ≠ "D")
  ∧ get_issue "D" (create_issue "D" 4 4 login_bug sample_db).2
    = Ok (create_issue "D" 4 4 login_bug sample_db).1.
Proof.
  assert (H : ∀ issue, issue ∈ sample_db → id issue ≠ "D").
  { apply Forall_forall. by repeat constructor. }
  split; [exact H|].
  exact (proj1 (create_then_get "D" 4 4 login_bug sample_db H)).
Defined.

(** X3: creating a record changes no lookup that succeeded before, even
    when the new id is one the store already has, nor any lookup of another
    id; the store grows by one record. *)
Theorem create_keeps_lookups uuid now1 now2 d db issue_id :
  issue_id ≠ uuid ∨ (∃ issue, issue ∈ db ∧ id issue = issue_id) →
  get_issue issue_id (create_issue uuid now1 now2 d db).2
  = get_issue issue_id db
  ∧ length (create_issue uuid now1 now2 d db).2 = S (length db).
Proof.
  intros H. simpl. split; [|rewrite length_app; simpl; lia].
  unfold get_issue, find_issue.
  destruct (list_find (λ issue, id issue = issue_id) db) as [[i x]|] eqn:Hf.
  - by rewrite (list_find_app_l _ _ _ _ _ Hf).
  - rewrite list_find_app_r by done. simpl.
    destruct H as [Hne|(issue & Hin & Hid)].
    + by rewrite decide_False.
    + apply list_find_None in Hf. rewrite Forall_forall in Hf.
      by destruct (Hf issue Hin).
Qed.

Lemma create_keeps_lookups_witness :
  ("A" ≠ "A" ∨ ∃ issue, issue ∈ sample_db ∧ id issue = "A")
  ∧ get_issue "A" (create_issue "A" 4 4 login_bug sample_db).2 = Ok issue_A.
Proof.
  assert (H : "A" ≠ "A" ∨ ∃ issue, issue ∈ sample_db ∧ id issue = "A").
  { right. exists issue_A. split; [apply list_elem_of_here|reflexivity]. }
  split; [exact H|].
  by rewrite (proj1 (create_keeps_lookups "A" 4 4 login_bug sample_db "A" H)).
Defined.

(** ** update_issue and get_issue *)

Lemma update_issue_Ok issue_id u now db issue' db' :
  update_issue issue_id u now db = (Ok issue', db') →
  ∃ i issue,
    find_issue issue_id db = Some (i, issue)
    ∧ issue' =
      set_updated_at (foldl setattr issue (model_dump_exclude_unset u)) now
    ∧ db' = <[i := issue']> db.
Proof.
  unfold update_issue.
  destruct (find_issue issue_id db) as [[i issue]|]; [|done].
  intros [= <- <-]. eauto.
Qed.

Lemma find_issue_updated issue_id u now db i issue :
  find_issue issue_id db = Some (i, issue) →
  let issue' :=
    set_updated_at (foldl setattr issue (model_dump_exclude_unset u)) now in
  find_issue issue_id (<[i := issue']> db) = Some (i, issue').
Proof.
  intros Hf. simpl. apply list_find_insert_same with issue; [done|].
  simpl. destruct (setattr_loop_fields issue u)
    as (_ & _ & _ & _ & _ & -> & _).
  by apply find_issue_Some in Hf as [_ ?].
Qed.

(** X4: the record that a successful update returns is the record that a
    lookup of the same id returns right after it. *)
Theorem update_then_get issue_id u now db issue' db' :
  update_issue issue_id u now db = (Ok issue', db') →
  get_issue issue_id db' = Ok issue'.
Proof.
  intros (i & issue & Hf & -> & ->)%update_issue_Ok.
  apply get_issue_Ok. exists i. by apply find_issue_updated.
Qed.

Lemma update_then_get_witness :
  ∃ issue' db',
    update_issue "B" (only_priority low) 9 sample_db = (Ok issue', db')
    ∧ get_issue "B" db' = Ok issue'
    ∧ priority issue' = Some low.
Proof.
  eexists _, _. split; [reflexivity|]. split; [|reflexivity].
  exact (update_then_get "B" (only_priority low) 9 sample_db _ _ eq_refl).
Defined.

(** X5: an update, successful or not, changes no lookup of another id, and
    neither the number of records nor their order of ids. *)
Theorem update_keeps_other_lookups issue_id u now db other :
  other ≠ issue_id →
  get_issue other (update_issue issue_id u now db).2 = get_issue other db
  ∧ length (update_issue issue_id u now db).2 = length db
  ∧ id <$> (update_issue issue_id u now db).2 = id <$> db.
Proof.
  intros Hne. split; [|split].
  - destruct (find_issue issue_id db) as [[i issue]|] eqn:Hf.
    + rewrite (update_issue_found _ _ _ _ _ _ Hf). simpl.
      apply find_issue_Some in Hf as [Hi Hid].
      unfold get_issue, find_issue.
      rewrite (list_find_insert_other _ db i issue); [done|done| |].
      * congruence.
      * simpl. destruct (setattr_loop_fields issue u)
          as (_ & _ & _ & _ & _ & -> & _). congruence.
    + by rewrite update_issue_missing.
  - destruct (update_issue_keeps_identity issue_id u now db) as [Hids _].
    apply (f_equal length) in Hids. by rewrite !length_fmap in Hids.
  - apply update_issue_keeps_identity.
Qed.

Lemma update_keeps_other_lookups_witness :
  "A" ≠ "B"
  ∧ get_issue "A" (update_issue "B" null_title 9 sample_db).2 = Ok issue_A.
Proof.
  assert (H : "A" ≠ "B") by discriminate.
  split; [exact H|].
  by rewrite (proj1 (update_keeps_other_lookups "B" null_title 9 sample_db
                       "A" H)).
Defined.

(** X6: two updates of the same issue, one after the other, leave each
    field at the value of the second request when it has the field, else of
    the first when that has it, else as it was; [updated_at] is the reading
    of the second and the record stays at its position. *)
Theorem update_twice issue_id u1 u2 now1 now2 db i issue :
  find_issue issue_id db = Some (i, issue) →
  ∃ issue2,
    update_issue issue_id u2 now2 (update_issue issue_id u1 now1 db).2
    = (Ok issue2, <[i := issue2]> db)
    ∧ title issue2 = merged (upd_title u2) (merged (upd_title u1) (title issue))
    ∧ description issue2 =
      merged (upd_description u2)
        (merged (upd_description u1) (description issue))
    ∧ status issue2 =
      merged (upd_status u2) (merged (upd_status u1) (status issue))
    ∧ priority issue2 =
      merged (upd_priority u2) (merged (upd_priority u1) (priority issue))
    ∧ assignee issue2 =
      merged (upd_assignee u2) (merged (upd_assignee u1) (assignee issue))
    ∧ id issue2 = id issue
    ∧ created_at issue2 = created_at issue
    ∧ updated_at issue2 = now2.
Proof.
  intros Hf. rewrite (update_issue_found _ _ _ _ _ _ Hf). simpl.
  pose proof (find_issue_updated issue_id u1 now1 db i issue Hf) as Hf'.
  simpl in Hf'. rewrite (update_issue_found _ _ _ _ _ _ Hf'). simpl.
  rewrite list_insert_insert_eq. eexists. split; [reflexivity|]. simpl.
  destruct (setattr_loop_fields issue u1)
    as (Ht & Hd & Hs & Hp & Ha & Hid & Hc & _).
  destruct (setattr_loop_fields
              (set_updated_at
                 (foldl setattr issue (model_dump_exclude_unset u1)) now1) u2)
    as (Ht' & Hd' & Hs' & Hp' & Ha' & Hid' & Hc' & _).
  simpl in *. by rewrite Ht', Hd', Hs', Hp', Ha', Hid', Hc', Ht, Hd, Hs, Hp,
    Ha, Hid, Hc.
Qed.

Lemma update_twice_witness :
  find_issue "B" sample_db = Some (1%nat, issue_B)
  ∧ ∃ issue2,
      update_issue "B" null_title 9
        (update_issue "B" (only_priority low) 8 sample_db).2
      = (Ok issue2, <[1%nat := issue2]> sample_db)
      ∧ title issue2 = None ∧ priority issue2 = Some low
      ∧ updated_at issue2 = 9.
Proof.
  split; [reflexivity|].
  destruct (update_twice "B" (only_priority low) null_title 8 9 sample_db
              1%nat issue_B eq_refl)
    as (issue2 & Hu & Ht & _ & _ & Hp & _ & _ & _ & Hup).
  exists issue2. done.
Defined.

(** ** What a run of requests keeps *)

Lemma created_uuids_snoc rs r :
  created_uuids (rs ++ [r]) = created_uuids rs ++ created_uuids [r].
Proof. unfold created_uuids. by rewrite bind_app. Qed.

Lemma creation_instants_snoc rs r :
  creation_instants (rs ++ [r]) = creation_instants rs ++ creation_instants [r].
Proof. unfold creation_instants. by rewrite bind_app. Qed.

Lemma run_ids rs :
  id <$> run rs = created_uuids rs
  ∧ created_at <$> run rs = creation_instants rs.
Proof.
  induction rs as [|r rs [IHid IHc]] using rev_ind; [done|].
  rewrite run_snoc, created_uuids_snoc, creation_instants_snoc.
  destruct r as [uuid now1 now2 d|issue_id u now]; simpl.
  - by rewrite !fmap_app, IHid, IHc.
  - destruct (update_issue_keeps_identity issue_id u now (run rs))
      as [-> ->].
    by rewrite !app_nil_r.
Qed.

(** X7: the ids of the store are the identifiers handed to the creations, in
    the order of the requests, and the creation instants are theirs: no
    request removes, reorders or renames a record, or touches [created_at];
    distinct identifiers give distinct ids. *)
Theorem store_ids_are_created_uuids rs :
  id <$> run rs = created_uuids rs
  ∧ created_at <$> run rs = creation_instants rs
  ∧ (∀ rs', ∃ more, id <$> run (rs ++ rs') = (id <$> run rs) ++ more)
  ∧ (NoDup (created_uuids rs) → NoDup (id <$> run rs)).
Proof.
  destruct (run_ids rs) as [Hid Hc]. split; [done|]. split; [done|]. split.
  - intros rs'. exists (created_uuids rs').
    rewrite (proj1 (run_ids (rs ++ rs'))), Hid.
    unfold created_uuids. by rewrite bind_app.
  - by rewrite Hid.
Qed.

(** A record is the first of its id in a list whose ids are distinct. *)
Lemma find_issue_NoDup db issue :
  NoDup (id <$> db) → issue ∈ db →
  ∃ i, find_issue (id issue) db = Some (i, issue).
Proof.
  intros Hnd (i & Hi)%list_elem_of_lookup_1. exists i.
  apply list_find_Some. split; [done|]. split; [done|].
  intros j other Hj Hji Heq.
  assert (j = i); [|lia].
  eapply NoDup_lookup; [exact Hnd| |].
  - by rewrite list_lookup_fmap, Hj.
  - rewrite list_lookup_fmap, Hi. simpl. by rewrite Heq.
Qed.

(** X8: when the identifiers handed to the creations are distinct, every
    record of the store is the one that a lookup of its id returns. *)
Theorem stored_issue_found_by_id rs issue :
  NoDup (created_uuids rs) → issue ∈ run rs →
  get_issue (id issue) (run rs) = Ok issue.
Proof.
  intros Hnd Hin. apply get_issue_Ok, find_issue_NoDup; [|done].
  by rewrite (proj1 (run_ids rs)).
Qed.

Lemma stored_issue_found_by_id_witness :
  NoDup (created_uuids cafe_trace)
  ∧ ∃ issue, issue ∈ run cafe_trace ∧ id issue = "B"
      ∧ get_issue (id issue) (run cafe_trace) = Ok issue.
Proof.
  assert (Hnd : NoDup (created_uuids cafe_trace)).
  { simpl. apply NoDup_cons. split; [|apply NoDup_singleton].
    intros Hin%list_elem_of_singleton. discriminate Hin. }
  split; [exact Hnd|].
  assert (Hin : (create_issue "B" 2 2 login_bug []).1 ∈ run cafe_trace).
  { apply list_elem_of_further, list_elem_of_here. }
  eexists. split; [exact Hin|]. split; [reflexivity|].
  exact (stored_issue_found_by_id cafe_trace _ Hnd Hin).
Defined.

(** X9: the health check reports as [total_issues] the number of creations
    so far, whatever the updates were, and the count never goes down. *)
Theorem health_counts_creations isoformat now rs :
  Health.total_issues (health_check isoformat now (run rs))
  = Z.of_nat (length (created_uuids rs))
  ∧ Health.status (health_check isoformat now (run rs)) = "ok"
  ∧ ∀ rs' now',
      Health.total_issues (health_check isoformat now (run rs))
      ≤ Health.total_issues (health_check isoformat now' (run (rs ++ rs'))).
Proof.
  assert (Hlen : ∀ rs0, length (run rs0) = length (created_uuids rs0)).
  { intros rs0. by rewrite <-(proj1 (run_ids rs0)), length_fmap. }
  simpl. rewrite Hlen. split; [done|]. split; [done|].
  intros rs' _. rewrite Hlen. unfold created_uuids.
  rewrite bind_app, length_app. lia.
Qed.

Lemma len_between_within lo hi s :
  len_between lo hi s = true → (lo ≤ len s ≤ hi)%nat.
Proof.
  unfold len_between. intros [H1 H2]%andb_prop.
  apply Nat.leb_le in H1, H2. lia.
Qed.

Lemma opt_ok_within lo hi o :
  opt_ok (len_between lo hi) o = true → within lo hi o.
Proof. intros H s ->. by apply len_between_within. Qed.

Lemma field_ok_merged lo hi f old :
  field_ok (len_between lo hi) f = true → within lo hi old →
  within lo hi (merged f old).
Proof.
  destruct f as [|v]; simpl; [done|]. intros H _. by apply opt_ok_within.
Qed.

(** X10: when every request passes the validation of its body, every text
    field of every stored record that holds a string stays within its
    declared length: 1 to 200 for the title, at most 2000 for the
    description and 100 for the assignee. *)
Theorem stored_fields_within_limits rs :
  Forall (λ r, valid_request r = true) rs →
  Forall within_limits (run rs).
Proof.
  intros Hrs.
  pose (P := λ (rs : list request) (issue : Issue),
    Forall (λ r, valid_request r = true) rs → within_limits issue).
  assert (H : Forall (P rs) (run rs)).
  { apply run_invariant; unfold P, within_limits.
    - intros rs0 r issue IH Hok. apply Forall_app in Hok as [Hok _]. auto.
    - intros rs0 uuid now1 now2 d db Hok.
      apply Forall_app in Hok as [_ Hok].
      apply Forall_inv in Hok. simpl in Hok.
      unfold valid_IssueCreate in Hok.
      apply andb_prop in Hok as [[Ht Hd]%andb_prop Ha]. simpl.
      split; [|split]; [|by apply opt_ok_within..].
      intros s [= <-]. by apply len_between_within.
    - intros rs0 issue_id u now issue IH Hok.
      apply Forall_app in Hok as [Hok0 Hok].
      apply Forall_inv in Hok. simpl in Hok.
      unfold valid_IssueUpdate in Hok.
      apply andb_prop in Hok as [[Ht Hd]%andb_prop Ha].
      destruct (IH Hok0) as (It & Id & Ia).
      destruct (setattr_loop_fields issue u) as (Et & Ed & _ & _ & Ea & _).
      simpl. rewrite Et, Ed, Ea.
      split; [|split]; by apply field_ok_merged. }
  eapply Forall_impl; [exact H|]. intros issue HP. by apply HP.
Qed.

Lemma stored_fields_within_limits_witness :
  Forall (λ r, valid_request r = true) cafe_trace
  ∧ Forall within_limits (run cafe_trace)
  ∧ title <$> run cafe_trace = [Some "Überprüfung"; Some "Fix login bug"]
  ∧ description <$> run cafe_trace = [Some "Crème brûlée"; None].
Proof.
  assert (H : Forall (λ r, valid_request r = true) cafe_trace)
    by (by repeat constructor).
  split; [exact H|].
  split; [exact (stored_fields_within_limits cafe_trace H)|].
  split; reflexivity.
Defined.

(** The limits count characters: a title of 150 characters in 300 bytes
    passes, one of 201 characters does not. *)
Example long_title_valid :
  len long_title = 150%nat
  ∧ String.length long_title = 300%nat
  ∧ valid_IssueCreate
      {| new_title := long_title; new_description := None;
         new_status := open; new_priority := medium;
         new_assignee := None |} = true
  ∧ len_between 1 200 (long_title +:+ String.concat "" (replicate 51 "é"))
    = false.
Proof. by vm_compute. Qed.

(** X11: status and priority hold a member of their enum in every stored
    record as long as no update sends [status: null] or [priority: null];
    creation always sets both. *)
Theorem enums_set_without_null rs :
  Forall (λ r, ¬ sets_enum_null r) rs → Forall enums_set (run rs).
Proof.
  intros Hrs.
  pose (P := λ (rs : list request) (issue : Issue),
    Forall (λ r, ¬ sets_enum_null r) rs → enums_set issue).
  assert (H : Forall (P rs) (run rs)).
  { apply run_invariant; unfold P, enums_set.
    - intros rs0 r issue IH Hok. apply Forall_app in Hok as [Hok _]. auto.
    - intros rs0 uuid now1 now2 d db _. simpl. split; by eexists.
    - intros rs0 issue_id u now issue IH Hok.
      apply Forall_app in Hok as [Hok0 Hok].
      apply Forall_inv in Hok. simpl in Hok.
      destruct (IH Hok0) as [Is Ip].
      destruct (setattr_loop_fields issue u) as (_ & _ & Es & Ep & _).
      simpl. rewrite Es, Ep.
      destruct (upd_status u) as [|[?|]], (upd_priority u) as [|[?|]];
        simpl; try (by split; eauto); destruct Hok; auto. }
  eapply Forall_impl; [exact H|]. intros issue HP. by apply HP.
Qed.

Lemma enums_set_without_null_witness :
  Forall (λ r, ¬ sets_enum_null r) null_title_trace
  ∧ Forall enums_set (run null_title_trace).
Proof.
  assert (H : Forall (λ r, ¬ sets_enum_null r) null_title_trace).
  { repeat constructor; simpl; [tauto|]. intros [?|?]; discriminate. }
  split; [exact H|]. exact (enums_set_without_null null_title_trace H).
Defined.

(** X12: an update that sends [status: null] is stored as it is, and the
    record then fails every status filter and takes the rank below open in
    a sort on status. *)
Theorem null_status_stored issue_id now db i issue st :
  find_issue issue_id db = Some (i, issue) →
  ∃ issue',
    update_issue issue_id
      {| upd_title := absent; upd_description := absent;
         upd_status := present None; upd_priority := absent;
         upd_assignee := absent |} now db
    = (Ok issue', <[i := issue']> db)
    ∧ status issue' = None
    ∧ ¬ (issue' ∈ filter_status (Some st) (<[i := issue']> db))
    ∧ status_key issue' = 0.
Proof.
  intros Hf. rewrite (update_issue_found _ _ _ _ _ _ Hf). simpl.
  eexists. split; [reflexivity|]. split; [done|]. split; [|done].
  rewrite list_elem_of_filter. by intros [? _].
Qed.

Lemma null_status_stored_witness :
  find_issue "A" sample_db = Some (0%nat, issue_A)
  ∧ ∃ issue',
      (update_issue "A"
         {| upd_title := absent; upd_description := absent;
            upd_status := present None; upd_priority := absent;
            upd_assignee := absent |} 9 sample_db).1 = Ok issue'
      ∧ status issue' = None.
Proof.
  split; [reflexivity|].
  destruct (null_status_stored "A" 9 sample_db 0%nat issue_A open eq_refl)
    as (issue' & Hu & Hs & _).
  exists issue'. by rewrite Hu.
Defined.

(** ** get_issues on any store *)

Lemma search_matches_raise `{!StrLower} sl x e :
  search_matches sl x = Raise e → e = AttributeError ∧ title x = None.
Proof.
  unfold search_matches, title_lower. destruct (title x); [done|].
  simpl. by intros [= <-].
Qed.

Lemma filterM_search_raises `{!StrLower} sl db r :
  r ∈ db → title r = None →
  filterM (search_matches sl) db = Raise AttributeError.
Proof.
  intros Hin Hr. induction Hin as [r l|r x l Hin IH]; simpl.
  - by rewrite search_matches_untitled.
  - rewrite (IH Hr). destruct (search_matches sl x) as [b|e] eqn:Hx; [done|].
    by apply search_matches_raise in Hx as [-> _].
Qed.

Lemma list_sort_title_raises `{!StrLower} d l r :
  r ∈ l → title r = None →
  list_sort String.leb title_lower d l = Raise AttributeError.
Proof.
  intros Hin Hr. unfold list_sort.
  assert (mapM (λ x : Issue, k' ← title_lower x; Ok (k', x)) l
          = Raise AttributeError) as ->; [|done].
  induction Hin as [r l|r x l Hin IH]; simpl.
  - unfold title_lower. by rewrite Hr.
  - rewrite (IH Hr). unfold title_lower. by destruct (title x).
Qed.

(** X13: once the store holds a record with a null title, every list query
    with a non-empty search term fails with an AttributeError, whatever the
    term and the filters, and so does every query sorted on the title that
    the record passes the filters of. *)
Theorem null_title_breaks_query `{!StrLower} q db r :
  r ∈ db → title r = None →
  (truthy (Query.search q) = true → get_issues q db = Raise AttributeError)
  ∧ (truthy (Query.search q) = false → Query.sort_by q = Some "title" →
     r ∈ apply_filters q db → get_issues q db = Raise AttributeError).
Proof.
  intros Hin Hr. unfold get_issues, filtered_sorted, search_and_filter,
    apply_search.
  split.
  - intros ->. by rewrite (filterM_search_raises _ db r).
  - intros -> -> Hf. simpl. rewrite apply_sorting_title.
    by rewrite (list_sort_title_raises _ _ r).
Qed.

Lemma null_title_breaks_query_witness :
  (∃ r, r ∈ run null_title_trace ∧ title r = None)
  ∧ get_issues login_query (run null_title_trace) = Raise AttributeError.
Proof.
  assert (Hin : set_updated_at
                  (foldl setattr (create_issue "A" 1 1 login_bug []).1
                     (model_dump_exclude_unset null_title)) 2
                ∈ run null_title_trace) by apply list_elem_of_here.
  split; [eexists; split; [exact Hin|reflexivity]|].
  exact (proj1 (null_title_breaks_query login_query _ _ Hin eq_refl) eq_refl).
Defined.

Lemma filterM_elem_of {A} (p : A → result bool) l out x :
  filterM p l = Ok out → x ∈ out → x ∈ l ∧ p x = Ok true.
Proof.
  revert out. induction l as [|y l IH]; intros out; simpl.
  - intros [= <-] Hx. by apply elem_of_nil in Hx.
  - destruct (p y) as [b|] eqn:Hy; [|done]. simpl.
    destruct (filterM p l) as [rest|]; [|done]. simpl.
    intros [= <-] Hx. destruct b.
    + apply elem_of_cons in Hx as [->|Hx].
      * split; [apply list_elem_of_here|done].
      * destruct (IH rest eq_refl Hx). split; [|done].
        by apply list_elem_of_further.
    + destruct (IH rest eq_refl Hx). split; [|done].
      by apply list_elem_of_further.
Qed.

Lemma get_issues_Ok_inv `{!StrLower} q db resp :
  get_issues q db = Ok resp →
  ∃ l, filtered_sorted q db = Ok l
    ∧ issues resp =
      slice l ((Query.page q - 1) * Query.page_size q)
        ((Query.page q - 1) * Query.page_size q + Query.page_size q)
    ∧ totalCount (pagination resp) = Z.of_nat (length l)
    ∧ Query.page_size q ≠ 0
    ∧ totalPages (pagination resp) =
      (Z.of_nat (length l) + Query.page_size q - 1) / Query.page_size q.
Proof.
  unfold get_issues. destruct (filtered_sorted q db) as [l|]; [|done].
  simpl. unfold floordiv.
  destruct (Z.eqb_spec (Query.page_size q) 0); [done|]. simpl.
  intros [= <-]. by exists l.
Qed.

Lemma filtered_sorted_Ok_inv `{!StrLower} q db l :
  filtered_sorted q db = Ok l →
  ∃ l0, apply_search (Query.search q) db = Ok l0
    ∧ l ≡ₚ apply_filters q l0.
Proof.
  unfold filtered_sorted, search_and_filter.
  destruct (apply_search (Query.search q) db) as [l0|]; [|done]. simpl.
  intros Hs. exists l0. split; [done|].
  by apply apply_sorting_Sorted in Hs as [? _].
Qed.

Lemma elem_of_slice {A} (l : list A) a b x : x ∈ slice l a b → x ∈ l.
Proof.
  unfold slice. intros Hx. by apply subseteq_take, subseteq_drop in Hx.
Qed.

(** X14: every record on a returned page is a record of the store that
    matches the query: a non-empty search term occurs in its title,
    description or assignee, ignoring case; its status and priority are the
    ones asked for; a non-empty assignee filter occurs in its assignee. This
    holds on every store, for every page number and page size. *)
Theorem page_records_match `{!StrLower} q db resp r :
  get_issues q db = Ok resp → r ∈ issues resp →
  r ∈ db
  ∧ (∀ s, Query.search q = Some s → s ≠ "" →
       appears_in s (title r) ∨ appears_in s (description r)
       ∨ appears_in s (assignee r))
  ∧ (∀ st, Query.status q = Some st → status r = Some st)
  ∧ (∀ pr, Query.priority q = Some pr → priority r = Some pr)
  ∧ (∀ a, Query.assignee q = Some a → a ≠ "" → appears_in a (assignee r)).
Proof.
  intros (l & Hl & -> & _)%get_issues_Ok_inv Hr%elem_of_slice.
  apply filtered_sorted_Ok_inv in Hl as (l0 & Hs & Hp).
  rewrite Hp in Hr. apply apply_filters_spec in Hr as (Hr & Hst & Hpr & Ha).
  unfold apply_search in Hs.
  destruct (truthy (Query.search q)) eqn:Ht.
  - destruct (filterM_elem_of _ _ _ _ Hs Hr) as [Hin Hm].
    split; [done|]. split; [|done].
    apply truthy_Some in Ht as (s & Hq & Hne). rewrite Hq in *.
    intros ? [= <-] _. simpl in Hm.
    unfold search_matches, title_lower in Hm.
    destruct (title r) as [t|] eqn:Htr; [|done]. simpl in Hm.
    injection Hm as Hm. rewrite <-Htr.
    apply search_cond_appears; [by exists t|done|].
    unfold search_cond. by rewrite Htr.
  - injection Hs as <-. split; [done|]. split; [|done].
    intros s Hq Hne. apply truthy_false in Ht as [Ht|Ht]; congruence.
Qed.

Lemma page_records_match_witness :
  ∃ resp, get_issues login_query sample_db = Ok resp
    ∧ issue_A ∈ issues resp
    ∧ status issue_A = Some open.
Proof.
  eexists. split; [reflexivity|].
  assert (Hin : issue_A ∈ [issue_A]) by apply list_elem_of_here.
  split; [exact Hin|].
  destruct (@page_records_match ascii_text login_query sample_db _ issue_A
              eq_refl Hin)
    as (_ & _ & Hst & _).
  by apply Hst.
Defined.

Lemma filtered_sorted_length `{!StrLower} q db l :
  filtered_sorted q db = Ok l → (length l ≤ length db)%nat.
Proof.
  intros (l0 & Hs & Hp)%filtered_sorted_Ok_inv.
  rewrite Hp. etrans; [apply sublist_length, apply_filters_spec|].
  unfold apply_search in Hs. destruct (truthy (Query.search q)).
  - by eapply sublist_length, filterM_sublist.
  - by injection Hs as <-.
Qed.

(** X15: for a valid page number and page size, a returned page never has
    more than [page_size] records; every page before the last is full, the
    last has at least one record, and every page after it is empty;
    [totalCount] is at most the size of the store and is zero exactly when
    [totalPages] is. *)
Theorem page_lengths `{!StrLower} q db resp :
  Query.valid q → get_issues q db = Ok resp →
  let n := Z.of_nat (length (issues resp)) in
  let total := totalCount (pagination resp) in
  let last := totalPages (pagination resp) in
  0 ≤ total ≤ Z.of_nat (length db)
  ∧ n ≤ Query.page_size q
  ∧ (Query.page q < last → n = Query.page_size q)
  ∧ (Query.page q = last → 1 ≤ n)
  ∧ (last < Query.page q → issues resp = [])
  ∧ (last = 0 ↔ total = 0).
Proof.
  intros (Hp & Hps & Hps') (l & Hl & Hi & -> & _ & ->)%get_issues_Ok_inv.
  pose proof (filtered_sorted_length q db l Hl) as Hlen.
  rewrite Hi, slice_page by done. clear Hi. simpl.
  pose proof (ceil_div_spec (Z.of_nat (length l)) (Query.page_size q)
                ltac:(lia)) as [Hlo Hhi].
  set (last := (Z.of_nat (length l) + Query.page_size q - 1)
               / Query.page_size q) in *.
  set (size := Query.page_size q) in *. set (page := Query.page q) in *.
  set (start := (page - 1) * size).
  assert (0 ≤ start) by (unfold start; nia).
  assert (H1 : page < last → start + size ≤ Z.of_nat (length l))
    by (unfold start; nia).
  assert (H2 : page = last → start < Z.of_nat (length l))
    by (unfold start; nia).
  assert (H3 : last < page → Z.of_nat (length l) ≤ start)
    by (unfold start; nia).
  rewrite length_take, length_drop.
  split; [lia|]. split; [lia|]. split; [lia|]. split; [lia|]. split.
  - intros Hlt. rewrite drop_ge by lia. by rewrite take_nil.
  - nia.
Qed.

Lemma page_lengths_witness :
  Query.valid second_page_query
  ∧ ∃ resp, get_issues second_page_query sample_db = Ok resp
      ∧ 1 ≤ Z.of_nat (length (issues resp)).
Proof.
  assert (Hq : Query.valid second_page_query).
  { unfold Query.valid. simpl. lia. }
  split; [exact Hq|]. eexists. split; [reflexivity|].
  destruct (page_lengths second_page_query sample_db _ Hq eq_refl)
    as (_ & _ & _ & Hlast & _).
  by apply Hlast.
Defined.

(** X16: the totals that a list query reports, [totalCount] and
    [totalPages], are the same for every page number, sort key and sort
    order: they depend on the search, the filters and the page size only. *)
Theorem totals_independent_of_sort_and_page `{!StrLower} q db p sb so resp resp' :
  get_issues q db = Ok resp →
  get_issues (with_sort_by (Query.with_sort_order (Query.with_page q p) so) sb)
    db = Ok resp' →
  totalCount (pagination resp') = totalCount (pagination resp)
  ∧ totalPages (pagination resp') = totalPages (pagination resp).
Proof.
  intros (l & Hl & _ & -> & _ & ->)%get_issues_Ok_inv
         (l' & Hl' & _ & -> & _ & ->)%get_issues_Ok_inv.
  apply filtered_sorted_Ok_inv in Hl as (l0 & Hs & Hp).
  apply filtered_sorted_Ok_inv in Hl' as (l0' & Hs' & Hp').
  simpl in Hs'. rewrite Hs in Hs'. injection Hs' as <-.
  assert (length l' = length l) as ->; [|done].
  by rewrite Hp, Hp'.
Qed.

Lemma totals_independent_of_sort_and_page_witness :
  ∃ resp resp',
    get_issues second_page_query sample_db = Ok resp
    ∧ get_issues
        (with_sort_by
           (Query.with_sort_order (Query.with_page second_page_query 1)
              (Some "desc")) (Some "priority")) sample_db = Ok resp'
    ∧ totalCount (pagination resp') = totalCount (pagination resp)
    ∧ totalPages (pagination resp') = 2.
Proof.
  eexists _, _. split; [reflexivity|]. split; [reflexivity|].
  split; [|reflexivity].
  exact (proj1 (totals_independent_of_sort_and_page second_page_query
                  sample_db 1 (Some "priority") (Some "desc") _ _
                  eq_refl eq_refl)).
Defined.

(** ** The terms of a query *)

Lemma lower_truthy `{!StrLower} (o o' : option string) :
  lower <$> o = lower <$> o' →
  truthy o = truthy o' ∧ lower (default "" o) = lower (default "" o').
Proof.
  destruct o as [s|], o' as [s'|]; simpl; intros Hl; try discriminate;
    [|done]. injection Hl as Hl.
  split; [|done]. f_equal.
  destruct (String.eqb_spec s ""), (String.eqb_spec s' ""); try done; subst.
  - rewrite lower_empty in Hl. symmetry in Hl.
    by apply lower_nonempty in Hl.
  - rewrite lower_empty in Hl. by apply lower_nonempty in Hl.
Qed.

(** X17: the case of the search term and of the assignee filter does not
    matter: two queries whose terms are equal once in lower case select and
    order the same records, and report the same pages and totals. *)
Theorem terms_ignore_case `{!StrLower} q db (so so' ao ao' : option string) :
  lower <$> so = lower <$> so' → lower <$> ao = lower <$> ao' →
  filtered_sorted (with_terms q so ao) db
  = filtered_sorted (with_terms q so' ao') db
  ∧ issues <$> get_issues (with_terms q so ao) db
    = issues <$> get_issues (with_terms q so' ao') db
  ∧ pagination <$> get_issues (with_terms q so ao) db
    = pagination <$> get_issues (with_terms q so' ao') db.
Proof.
  intros [Hst Hsl]%lower_truthy [Hat Hal]%lower_truthy.
  assert (Heq : filtered_sorted (with_terms q so ao) db
                = filtered_sorted (with_terms q so' ao') db).
  { unfold filtered_sorted, search_and_filter, apply_search, apply_filters,
      filter_assignee. simpl. by rewrite Hst, Hsl, Hat, Hal. }
  split; [done|]. unfold get_issues. rewrite Heq.
  destruct (filtered_sorted (with_terms q so' ao') db) as [l|]; [|done].
  simpl. by destruct (floordiv _ _).
Qed.

Lemma terms_ignore_case_witness :
  lower <$> Some "LOGIN" = lower <$> Some "Login"
  ∧ filtered_sorted login_query sample_db
    = filtered_sorted (with_terms login_query (Some "Login") None) sample_db.
Proof.
  assert (H : lower <$> Some "LOGIN" = lower <$> Some "Login")
    by reflexivity.
  split; [exact H|].
  exact (proj1 (terms_ignore_case login_query sample_db (Some "LOGIN")
                  (Some "Login") None None H eq_refl)).
Defined.

(** ** The sort keys *)

(** X18: a sort on the title that returns has ordered the records on their
    titles in lower case, so ignoring case, and records whose titles differ
    in case only keep their relative order; no record is lost or added. *)
Theorem title_sort_ignores_case `{!StrLower} so l out :
  apply_sorting (Some "title") so l = Ok out →
  out ≡ₚ l
  ∧ Sorted (λ a b, if bool_decide (so = Some "desc")
                   then String.leb (title_key b) (title_key a) = true
                   else String.leb (title_key a) (title_key b) = true) out
  ∧ ∀ v, filter (λ a, title_key a = v) out = filter (λ a, title_key a = v) l.
Proof.
  rewrite apply_sorting_title. intros Hout.
  destruct (list_sort_spec String.leb title_key title_lower
              (bool_decide (so = Some "desc")) l String.leb_total
              String_leb_refl)
    as (out' & Hout' & Hp & Hs & Hst).
  { intros a Ha.
    destruct (list_sort_Ok_keys _ _ _ _ _ Hout a Ha) as [v Hv].
    unfold title_lower, title_key in *. by destruct (title a). }
  rewrite Hout in Hout'. by injection Hout' as <-.
Qed.

Lemma title_sort_ignores_case_witness :
  ∃ out, apply_sorting (Some "title") (Some "asc") sample_db = Ok out
    ∧ out ≡ₚ sample_db.
Proof.
  eexists. split; [reflexivity|].
  exact (proj1 (title_sort_ignores_case (Some "asc") sample_db _ eq_refl)).
Defined.





Lemma not_named_sort_key sb :
  ¬ (sb ∈ named_sort_keys) →
  sb ≠ Some "title" ∧ sb ≠ Some "status" ∧ sb ≠ Some "priority"
  ∧ sb ≠ Some "assignee" ∧ sb ≠ Some "created_at".
Proof.
  unfold named_sort_keys. rewrite !not_elem_of_cons. tauto.
Qed.

(** X20: a sort on [created_at] orders the records by creation instant, and
    every [sort_by] other than the five named ones (absent, "updated_at" or
    unknown) sorts as "updated_at" does, by the instant of the last update;
    both in the direction asked and keeping records of equal instant in
    their relative order. *)
Theorem time_sorts_and_default `{!StrLower} sb so l :
  (∃ out, apply_sorting (Some "created_at") so l = Ok out
     ∧ sorted_stably created_at so l out)
  ∧ (¬ (sb ∈ named_sort_keys) →
     apply_sorting sb so l = apply_sorting (Some "updated_at") so l
     ∧ ∃ out, apply_sorting sb so l = Ok out
         ∧ sorted_stably updated_at so l out).
Proof.
  split.
  - rewrite apply_sorting_created_at. by apply list_sort_Z.
  - intros (? & ? & ? & ? & ?)%not_named_sort_key.
    rewrite apply_sorting_default by done.
    split; [by rewrite apply_sorting_default|]. by apply list_sort_Z.
Qed.

Lemma time_sorts_and_default_witness :
  ¬ (Some "bogus" ∈ named_sort_keys)
  ∧ apply_sorting (Some "bogus") (Some "desc") sample_db
    = Ok [issue_C; issue_B; issue_A].
Proof.
  assert (H : ¬ (Some "bogus" ∈ named_sort_keys)).
  { unfold named_sort_keys. rewrite !not_elem_of_cons.
    repeat split; try discriminate. apply not_elem_of_nil. }
  split; [exact H|].
  by rewrite (proj1 (proj2 (time_sorts_and_default (Some "bogus")
                              (Some "desc") sample_db) H)).
Defined.

Lemma apply_sorting_untitled_total `{!StrLower} sb so l :
  sb ≠ Some "title" → ∃ out, apply_sorting sb so l = Ok out.
Proof.
  intros Hsb.
  destruct (decide (sb = Some "status")) as [->|?].
  { rewrite apply_sorting_status. eexists.
    by apply (list_sort_total _ status_key). }
  destruct (decide (sb = Some "priority")) as [->|?].
  { rewrite apply_sorting_priority. eexists.
    by apply (list_sort_total _ priority_key). }
  destruct (decide (sb = Some "assignee")) as [->|?].
  { rewrite apply_sorting_assignee. eexists.
    by apply (list_sort_total _ (λ x, or_empty (assignee x))). }
  destruct (decide (sb = Some "created_at")) as [->|?].
  { rewrite apply_sorting_created_at. eexists.
    by apply (list_sort_total _ created_at). }
  rewrite apply_sorting_default by done. eexists.
  by apply (list_sort_total _ updated_at).
Qed.

(** X21: a list query with no search term (absent or empty) and a sort key
    other than the title returns a response on every store, null titles
    included, for every valid page number and page size. *)
Theorem query_without_search_returns `{!StrLower} q db :
  Query.valid q → truthy (Query.search q) = false →
  Query.sort_by q ≠ Some "title" →
  ∃ resp, get_issues q db = Ok resp.
Proof.
  intros Hq Hs Hsb.
  destruct (apply_sorting_untitled_total (Query.sort_by q)
              (Query.sort_order q) (apply_filters q db) Hsb) as [l Hl].
  eexists. apply (get_issues_page q db l); [done|].
  unfold filtered_sorted, search_and_filter, apply_search. by rewrite Hs.
Qed.

Lemma query_without_search_returns_witness :
  Query.valid priority_desc_query
  ∧ ∃ resp, get_issues priority_desc_query (run null_title_trace) = Ok resp.
Proof.
  assert (Hq : Query.valid priority_desc_query).
  { unfold Query.valid. simpl. lia. }
  split; [exact Hq|].
  apply (query_without_search_returns priority_desc_query _ Hq eq_refl).
  discriminate.
Defined.

(** X22: on a store whose records all have a title, every list query with
    a valid page number and page size returns a response: no search term,
    filter, sort key or sort order makes it fail. *)
Theorem query_on_titled_store_returns `{!StrLower} q db :
  Query.valid q → Forall has_title db →
  ∃ resp, get_issues q db = Ok resp
    ∧ 0 ≤ totalCount (pagination resp) ≤ Z.of_nat (length db).
Proof.
  intros Hq Hdb.
  destruct (get_issues_total q db Hq Hdb) as (l & resp & Hl & Hr).
  exists resp. split; [done|].
  pose proof (filtered_sorted_length q db l Hl).
  rewrite (get_issues_page q db l Hq Hl) in Hr. injection Hr as <-.
  simpl. lia.
Qed.

Lemma query_on_titled_store_returns_witness :
  Query.valid login_query ∧ Forall has_title sample_db
  ∧ ∃ resp, get_issues login_query sample_db = Ok resp.
Proof.
  assert (Hq : Query.valid login_query).
  { unfold Query.valid. simpl. lia. }
  assert (Hdb : Forall has_title sample_db)
    by (repeat constructor; by eexists).
  split; [exact Hq|]. split; [exact Hdb|].
  destruct (query_on_titled_store_returns login_query sample_db Hq Hdb)
    as (resp & Hr & _).
  by exists resp.
Defined.

(** X23: titles stay non-empty strings in every stored record as long as
    every request passes validation and no update sends [title: null]. *)
Theorem titles_kept_without_null rs :
  Forall (λ r, valid_request r = true ∧ ¬ sets_title_null r) rs →
  Forall title_nonempty (run rs) ∧ Forall has_title (run rs).
Proof.
  intros Hrs. pose proof (titles_nonempty_without_null rs Hrs) as H.
  split; [done|]. eapply Forall_impl; [exact H|].
  intros issue (s & Hs & _). by exists s.
Qed.

Lemma titles_kept_without_null_witness :
  Forall (λ r, valid_request r = true ∧ ¬ sets_title_null r) cafe_trace
  ∧ Forall title_nonempty (run cafe_trace)
  ∧ title <$> run cafe_trace = [Some "Überprüfung"; Some "Fix login bug"].
Proof.
  assert (H : Forall (λ r, valid_request r = true ∧ ¬ sets_title_null r)
                cafe_trace).
  { repeat constructor; simpl; try tauto. discriminate. }
  split; [exact H|].
  split; [exact (proj1 (titles_kept_without_null cafe_trace H))|reflexivity].
Defined.

(** ** The records of a query and its pages *)

Lemma elem_of_concat {A} (x : A) (ls : list (list A)) :
  x ∈ concat ls ↔ ∃ l, l ∈ ls ∧ x ∈ l.
Proof.
  induction ls as [|l ls IH]; simpl.
  - split; [by intros ?%elem_of_nil|]. by intros (? & ?%elem_of_nil & _).
  - rewrite elem_of_app, IH. split.
    + intros [Hx|(l' & Hl' & Hx)].
      * exists l. split; [apply list_elem_of_here|done].
      * exists l'. split; [by apply list_elem_of_further|done].
    + intros (l' & [->|Hl']%elem_of_cons & Hx); [by left|].
      right. by exists l'.
Qed.

(** X24: on a store whose records all have a title, the pages 1 to
    [totalPages] of a query hold between them exactly the records of the
    store that match the query: every matching record is on one of these
    pages, and no page holds a record that does not match. *)
Theorem matching_records_are_paged `{!StrLower} q db :
  Query.valid q → Forall has_title db →
  ∃ resp chunks,
    get_issues q db = Ok resp
    ∧ pages q db (totalPages (pagination resp)) = Ok chunks
    ∧ ∀ r, (∃ chunk, chunk ∈ chunks ∧ r ∈ chunk) ↔ r ∈ db ∧ survives q r.
Proof.
  intros Hq Hdb.
  destruct (get_issues_total q db Hq Hdb) as (l & resp & Hl & Hr).
  rewrite (get_issues_page q db l Hq Hl) in Hr. injection Hr as <-.
  eexists _, _. split; [by apply get_issues_page|]. simpl.
  destruct Hq as (_ & Hps).
  pose proof (ceil_div_spec (Z.of_nat (length l)) (Query.page_size q)
                ltac:(lia)) as [Hlo Hhi].
  set (n := (Z.of_nat (length l) + Query.page_size q - 1)
            / Query.page_size q) in *.
  assert (0 ≤ n) by nia.
  rewrite <-(Z2Nat.id n) by done. split; [by apply pages_chunks|].
  intros r. rewrite <-elem_of_concat, concat_chunks, take_ge by nia.
  apply filtered_sorted_Ok_inv in Hl as (l0 & Hs & ->).
  destruct (apply_search_titled (Query.search q) db Hdb)
    as (l0' & Hs' & _ & Hin).
  rewrite Hs in Hs'. injection Hs' as <-.
  rewrite (proj2 (apply_filters_spec q l0)), Hin. unfold survives. tauto.
Qed.

Lemma matching_records_are_paged_witness :
  Query.valid login_query ∧ Forall has_title sample_db
  ∧ ∃ chunks, pages login_query sample_db 1 = Ok chunks
      ∧ ∀ r, (∃ chunk, chunk ∈ chunks ∧ r ∈ chunk) ↔
             r ∈ sample_db ∧ survives login_query r.
Proof.
  assert (Hq : Query.valid login_query).
  { unfold Query.valid. simpl. lia. }
  assert (Hdb : Forall has_title sample_db)
    by (repeat constructor; by eexists).
  split; [exact Hq|]. split; [exact Hdb|].
  destruct (matching_records_are_paged login_query sample_db Hq Hdb)
    as (resp & chunks & Hr & Hp & Hm).
  exists chunks. split; [|exact Hm].
  injection Hr as <-. exact Hp.
Defined.
